(** * Verification of the commit relay (src/index.js)

    A shallow embedding of the three pieces of [src/index.js] that carry
    behaviour: the rate-limit guard [makeGitHubRequest], the diff endpoint
    handler, and the unified-diff parser [parsePatch].

    Modelling conventions.
    - A JavaScript string is a [string]; only code units below 128 matter to
      the code ('@', '-', '+', ',', ' ', digits and the newline).
    - A JavaScript number that holds a line number is a [Z]: the double it
      is, a non-negative integer, or [Js.infinity] for +Infinity.  The source
      obtains these numbers with [parseInt] on a run of decimal digits and
      only ever adds one; both round to the nearest double ([Js.round]), so
      they are exact up to 2^53 and not beyond.
    - What the JavaScript runtime provides and the repository does not define
      ([String.prototype.toUpperCase], the text of a TypeError) is a
      parameter, the record [runtime].
    - [null] / [undefined] is [None]. *)

From Stdlib Require Import ZArith Ascii String DecimalString DecimalN DecimalPos.
From stdpp Require Import base tactics option list strings gmap.

Local Open Scope string_scope.
Local Open Scope list_scope.
Local Open Scope Z_scope.

(** ** Numbers

    The doubles the program meets are non-negative integers and +Infinity.
    Adding one and reading a decimal numeral both give the double nearest to
    the exact result, ties going to the even significand. *)

Module Js.

(** 2^53: every integer up to it is a double. *)
Definition exact_limit : Z := 9007199254740992.

(** +Infinity, written as the first power of two that is not a finite double. *)
Definition infinity : Z := 2 ^ 1024.

(** The double nearest to the integer [n] (IEEE 754 binary64, round to
    nearest, ties to even; overflow gives +Infinity). *)
Definition round (n : Z) : Z :=
  if n <=? exact_limit then n
  else
    let e := Z.log2 n - 52 in
    let q := n / 2 ^ e in
    let r := n mod 2 ^ e in
    let half := 2 ^ (e - 1) in
    let q' := if (half <? r) || ((r =? half) && Z.odd q) then q + 1 else q in
    let v := q' * 2 ^ e in
    if infinity <=? v then infinity else v.

(** The value [x++] leaves in the variable. *)
Definition succ (x : Z) : Z := round (x + 1).

(** The counter after [n] increments. *)
Fixpoint advance (x : Z) (n : nat) : Z :=
  match n with
  | O => x
  | S n' => advance (succ x) n'
  end.

(** The [n] values a counter takes from [x] on, one increment apart. *)
Fixpoint run (x : Z) (n : nat) : list Z :=
  match n with
  | O => []
  | S n' => x :: run (succ x) n'
  end.

End Js.

(** ** Strings *)

Module Str.

(** The newline code unit, U+000A. *)
Definition nl_char : ascii := "010"%char.
Definition nl : string := String nl_char "".

(** [s.startsWith(p)] *)
Fixpoint startsWith (p s : string) : bool :=
  match p, s with
  | EmptyString, _ => true
  | String a p', String b s' => if decide (a = b) then startsWith p' s' else false
  | String _ _, EmptyString => false
  end.

(** [s.split('\n')]: never empty, the empty string gives one empty line. *)
Fixpoint split_nl (s : string) : list string :=
  match s with
  | EmptyString => [EmptyString]
  | String c s' =>
      if decide (c = nl_char) then EmptyString :: split_nl s'
      else match split_nl s' with
           | l :: ls => String c l :: ls
           | [] => [String c EmptyString]
           end
  end.

(** [ls.join('\n')] *)
Fixpoint join_nl (ls : list string) : string :=
  match ls with
  | [] => ""
  | [l] => l
  | l :: ls' => l +:+ nl +:+ join_nl ls'
  end.

(** The line holds no newline. *)
Fixpoint one_line (s : string) : Prop :=
  match s with
  | EmptyString => True
  | String c s' => c ≠ nl_char ∧ one_line s'
  end.

(** [/\d/] accepts exactly the ten ASCII digits. *)
Definition is_digit (c : ascii) : bool :=
  let n := N_of_ascii c in (48 <=? n)%N && (n <=? 57)%N.

Definition digit_value (c : ascii) : Z := Z.of_N (N_of_ascii c) - 48.

(** The integer a string of decimal digits denotes. *)
Definition decimal (s : string) : Z :=
  fold_left (fun acc c => 10 * acc + digit_value c) (list_ascii_of_string s) 0.

(** [parseInt(s)] on a string of decimal digits: the double nearest to the
    integer it denotes, as Node's V8 computes it (ECMAScript lets an engine
    read the digits after the 20th as zeros; V8 does not). *)
Definition parseInt (s : string) : Z := Js.round (decimal s).

(** Capitalisation of the ASCII letters, all other bytes unchanged. *)
Definition upper_char (c : ascii) : ascii :=
  let n := N_of_ascii c in
  if (97 <=? n)%N && (n <=? 122)%N then ascii_of_N (n - 32) else c.

Fixpoint ascii_upper (s : string) : string :=
  match s with
  | EmptyString => EmptyString
  | String c s' => String (upper_char c) (ascii_upper s')
  end.

End Str.

(** ** The hunk header pattern

    [/^@@ -(\d+),?\d* \+(\d+),?\d* @@/] as a backtracking matcher: every
    quantifier lists its ways to match in the order the engine tries them
    (greedy first), the pieces are chained in the list monad, and the match
    is the first complete path. *)

Module Re.

(** A literal: at most one way to match. *)
Fixpoint lit (p s : string) : list string :=
  match p, s with
  | EmptyString, _ => [s]
  | String a p', String b s' => if decide (a = b) then lit p' s' else []
  | String _ _, EmptyString => []
  end.

(** [x?] for a literal [x]: with it first, then without. *)
Definition opt (p s : string) : list string := lit p s ++ [s].

(** [\d*]: the captured digits and the rest, longest run first. *)
Fixpoint digits_star (s : string) : list (string * string) :=
  match s with
  | String c s' =>
      if Str.is_digit c
      then map (fun dr => (String c dr.1, dr.2)) (digits_star s') ++ [("", s)]
      else [("", s)]
  | EmptyString => [("", "")]
  end.

(** [\d+]: as [\d*] without the empty run. *)
Definition digits_plus (s : string) : list (string * string) :=
  filter (fun dr => dr.1 ≠ "") (digits_star s).

(** All matches of the header pattern at index 0, as the pair of the two
    captured groups, in the engine's order. *)
Definition header_paths (line : string) : list (string * string) :=
  r0 ← lit "@@ -" line;
  '(g1, r1) ← digits_plus r0;
  r2 ← opt "," r1;
  '(_, r3) ← digits_star r2;
  r4 ← lit " +" r3;
  '(g2, r5) ← digits_plus r4;
  r6 ← opt "," r5;
  '(_, r7) ← digits_star r6;
  _ ← lit " @@" r7;
  [(g1, g2)].

(** [line.match(...)]: [None] is the [null] of a failed match. *)
Definition header_match (line : string) : option (string * string) :=
  head (header_paths line).

End Re.

(** ** Data model *)

Record LineRecord := mkLine {
  baseLineNumber : option Z;
  headLineNumber : option Z;
  content : string
}.

Record Hunk := mkHunk {
  header : string;
  lines : list LineRecord
}.

(** ** The patch parser *)

(** The variables [parsePatch] closes over. *)
Record pstate := mkState {
  hunks : list Hunk;
  currentHunk : option Hunk;
  baseLine : Z;
  headLine : Z
}.

Definition init : pstate := mkState [] None 0 0.

(** [if (currentHunk) hunks.push(currentHunk)] *)
Definition flush (st : pstate) : list Hunk :=
  match currentHunk st with
  | Some h => hunks st ++ [h]
  | None => hunks st
  end.

Definition is_header (line : string) : bool := Str.startsWith "@@" line.

(** The start numbers a header line resets the counters to, when it matches. *)
Definition header_starts (line : string) : option (Z * Z) :=
  match Re.header_match line with
  | Some (g1, g2) => Some (Str.parseInt g1, Str.parseInt g2)
  | None => None
  end.

(** The body of the [lines.forEach] callback. *)
Definition step (st : pstate) (line : string) : pstate :=
  if is_header line then
    let hs := flush st in
    let bh := match header_starts line with
              | Some bh => bh
              | None => (baseLine st, headLine st)
              end in
    mkState hs (Some (mkHunk line [])) bh.1 bh.2
  else
    match currentHunk st with
    | Some cur =>
        if Str.startsWith "-" line then
          mkState (hunks st)
            (Some (mkHunk (header cur)
                     (lines cur ++ [mkLine (Some (baseLine st)) None line])))
            (Js.succ (baseLine st)) (headLine st)
        else if Str.startsWith "+" line then
          mkState (hunks st)
            (Some (mkHunk (header cur)
                     (lines cur ++ [mkLine None (Some (headLine st)) line])))
            (baseLine st) (Js.succ (headLine st))
        else
          mkState (hunks st)
            (Some (mkHunk (header cur)
                     (lines cur ++ [mkLine (Some (baseLine st)) (Some (headLine st)) line])))
            (Js.succ (baseLine st)) (Js.succ (headLine st))
    | None => st
    end.

Definition parseLines (ls : list string) : list Hunk :=
  flush (fold_left step ls init).

Definition parsePatch (patch : string) : list Hunk :=
  parseLines (Str.split_nl patch).

(** The patch of the worked scenario. *)
Definition scenario_patch : string :=
  Str.join_nl ["@@ -1,2 +1,3 @@"; " context"; "-old"; "+new1"; "+new2"].

(** ** The JavaScript runtime

    What the program takes from its runtime and does not define. *)

Record runtime := mkRuntime {
  (** [String.prototype.toUpperCase] *)
  toUpperCase : string → string;
  (** The message of the TypeError thrown on reading the property named by
      the argument of [undefined]. *)
  type_error_text : string → string
}.

(** ** The upstream API, as the endpoints see it

    The upstream service is outside the program: a call to it either resolves
    with a payload or rejects with an error object.  Payloads are typed by
    the upstream contract (a commit lookup returns [parents], a compare
    lookup returns [files]); a response object always has its headers.  In
    a resolved payload [parents], [files], a file's [status] and a file's
    [patch] may be missing. *)

Module Upstream.

(** [error.response]: the status and headers of an upstream answer. *)
Record Response := mkResponse {
  status : Z;
  headers : gmap string string
}.

(** The error object a failed call rejects with; [response] is absent when
    no answer arrived. *)
Record Failure := mkFailure {
  response : option Response;
  message : string
}.

Inductive result (A : Type) : Type :=
| Fulfilled (payload : A)
| Rejected (e : Failure).
Global Arguments Fulfilled {A} payload.
Global Arguments Rejected {A} e.

Record ParentRef := mkParent { parent_sha : string }.

(** [response.data] of the single-commit lookup, as far as the diff endpoint
    reads it. *)
Record CommitData := mkCommit {
  sha : string;
  parents : option (list ParentRef)
}.

Record FileEntry := mkFile {
  file_status : option string;
  filename : string;
  patch : option string
}.

(** [response.data] of the compare lookup. *)
Record CompareData := mkCompare { files : option (list FileEntry) }.

Inductive endpoint := CommitLookup | CompareLookup.

Definition payload (ep : endpoint) : Type :=
  match ep with
  | CommitLookup => CommitData
  | CompareLookup => CompareData
  end.

(** The upstream service: what [githubApi.get(url)] settles to. *)
Definition service := ∀ ep : endpoint, string → result (payload ep).

End Upstream.

(** ** Programs that call upstream

    An asynchronous function is a tree: it finishes with a value, or awaits
    one upstream call and goes on with what the call settles to. *)

Inductive prog (R : Type) : Type :=
| Done (r : R)
| Await (ep : Upstream.endpoint) (url : string)
        (k : Upstream.result (Upstream.payload ep) → prog R).
Global Arguments Done {R} r.
Global Arguments Await {R} ep url k.

(** How a call of an asynchronous function ends. *)
Inductive outcome (A : Type) : Type :=
| Returned (a : A)
| Thrown (e : Upstream.Failure).
Global Arguments Returned {A} a.
Global Arguments Thrown {A} e.

Fixpoint bind {A B} (p : prog (outcome A)) (f : A → prog (outcome B)) : prog (outcome B) :=
  match p with
  | Done (Returned a) => f a
  | Done (Thrown e) => Done (Thrown e)
  | Await ep url k => Await ep url (λ res, bind (k res) f)
  end.

Notation "'let_await' x := p 'in' q" := (bind p (λ x, q))
  (at level 10, x name, p at level 100, q at level 200, only parsing).

(** [try { body } catch (error) { handler }] around a whole function body. *)
Fixpoint try_catch {A} (p : prog (outcome A)) (handler : Upstream.Failure → A) : prog A :=
  match p with
  | Done (Returned a) => Done a
  | Done (Thrown e) => Done (handler e)
  | Await ep url k => Await ep url (λ res, try_catch (k res) handler)
  end.

(** Running a program against a service: the calls made, in order, and the
    value the program finishes with. *)
Fixpoint run {R} (api : Upstream.service) (p : prog R) : list (Upstream.endpoint * string) * R :=
  match p with
  | Done r => ([], r)
  | Await ep url k =>
      let out := run api (k (api ep url)) in
      ((ep, url) :: out.1, out.2)
  end.

(** ** The rate-limit guard *)

Record RateLimitSignal := mkSignal {
  error : string;
  retry_after : option string
}.

(** What [makeGitHubRequest] returns: the upstream answer, or the signal. *)
Inductive guarded (A : Type) : Type :=
| Answer (a : A)
| Limited (s : RateLimitSignal).
Global Arguments Answer {A} a.
Global Arguments Limited {A} s.

(** [error.response?.status === 403 &&
     error.response?.headers['x-ratelimit-remaining'] === '0'] *)
Definition quota_exhausted (e : Upstream.Failure) : bool :=
  match Upstream.response e with
  | Some r =>
      bool_decide (Upstream.status r = 403) &&
      bool_decide (Upstream.headers r !! "x-ratelimit-remaining" = Some "0")
  | None => false
  end.

(** [error.response?.headers['x-ratelimit-reset']] *)
Definition reset_header (e : Upstream.Failure) : option string :=
  match Upstream.response e with
  | Some r => Upstream.headers r !! "x-ratelimit-reset"
  | None => None
  end.

(** The [try]/[catch] of [makeGitHubRequest], on what the call settled to. *)
Definition settle {A} (res : Upstream.result A) : outcome (guarded A) :=
  match res with
  | Upstream.Fulfilled a => Returned (Answer a)
  | Upstream.Rejected e =>
      if quota_exhausted e
      then Returned (Limited (mkSignal "GitHub API rate limit exceeded" (reset_header e)))
      else Thrown e
  end.

Definition makeGitHubRequest (ep : Upstream.endpoint) (url : string)
  : prog (outcome (guarded (Upstream.payload ep))) :=
  Await ep url (λ res, Done (settle res)).

(** ** The diff endpoint *)

Module Api.

Record PathRef := mkPath { path : string }.

Record FileDiff := mkFileDiff {
  changeKind : string;
  headFile : PathRef;
  baseFile : PathRef;
  hunks : list Hunk
}.

Inductive Body :=
| SignalBody (s : RateLimitSignal)
| MessageBody (message : string)
| ErrorBody (message : string) (error : string)
| FilesBody (files : list FileDiff).

(** [res.status(code).json(body)]; [res.json(body)] sends 200. *)
Record Reply := mkReply { code : Z; body : Body }.

End Api.

(** [`/repos/${owner}/${repository}/commits/${oid}`] *)
Definition commit_url (owner repository oid : string) : string :=
  "/repos/" +:+ owner +:+ "/" +:+ repository +:+ "/commits/" +:+ oid.

(** [`/repos/${owner}/${repository}/compare/${parentOid}...${oid}`] *)
Definition compare_url (owner repository parentOid oid : string) : string :=
  "/repos/" +:+ owner +:+ "/" +:+ repository +:+ "/compare/" +:+ parentOid +:+ "..." +:+ oid.

(** [commitResponse.data.parents?.[0]?.sha], with [None] for every value the
    test [!parentOid] rejects (no list, no first entry, an empty string). *)
Definition parentOid (c : Upstream.CommitData) : option string :=
  match Upstream.parents c with
  | Some (p :: _) =>
      if decide (Upstream.parent_sha p = "") then None else Some (Upstream.parent_sha p)
  | Some [] | None => None
  end.

(** [file.patch ? parsePatch(file.patch) : []]: the empty string is falsy. *)
Definition file_hunks (f : Upstream.FileEntry) : list Hunk :=
  match Upstream.patch f with
  | Some p => if decide (p = "") then [] else parsePatch p
  | None => []
  end.

(** The TypeError thrown on reading the property [name] of [undefined]: an
    error object without [response]. *)
Definition type_error (rt : runtime) (name : string) : Upstream.Failure :=
  Upstream.mkFailure None (type_error_text rt name).

(** The callback of [diffResponse.data.files.map]; [None] when
    [file.status.toUpperCase()] throws because the file has no status. *)
Definition file_diff (rt : runtime) (f : Upstream.FileEntry) : option Api.FileDiff :=
  match Upstream.file_status f with
  | Some status =>
      Some (Api.mkFileDiff (toUpperCase rt status)
              (Api.mkPath (Upstream.filename f))
              (Api.mkPath (Upstream.filename f))
              (file_hunks f))
  | None => None
  end.

(** [error.response?.status || 500] *)
Definition failure_status (e : Upstream.Failure) : Z :=
  match Upstream.response e with
  | Some r => if decide (Upstream.status r = 0) then 500 else Upstream.status r
  | None => 500
  end.

(** The [try] block of the diff handler. *)
Definition diff_body (rt : runtime) (owner repository oid : string)
  : prog (outcome Api.Reply) :=
  let_await commitResponse :=
    makeGitHubRequest Upstream.CommitLookup (commit_url owner repository oid) in
  match commitResponse with
  | Limited s => Done (Returned (Api.mkReply 429 (Api.SignalBody s)))
  | Answer commit =>
      match parentOid commit with
      | None => Done (Returned (Api.mkReply 400 (Api.MessageBody "No parent commit found")))
      | Some parent =>
          let_await diffResponse :=
            makeGitHubRequest Upstream.CompareLookup
              (compare_url owner repository parent oid) in
          match diffResponse with
          | Limited s => Done (Returned (Api.mkReply 429 (Api.SignalBody s)))
          | Answer d =>
              match Upstream.files d with
              | None => Done (Thrown (type_error rt "map"))
              | Some fs =>
                  match mapM (file_diff rt) fs with
                  | None => Done (Thrown (type_error rt "toUpperCase"))
                  | Some files => Done (Returned (Api.mkReply 200 (Api.FilesBody files)))
                  end
              end
          end
      end
  end.

(** [app.get('/repositories/:owner/:repository/commits/:oid/diff', ...)] *)
Definition diff_handler (rt : runtime) (owner repository oid : string) : prog Api.Reply :=
  try_catch (diff_body rt owner repository oid)
    (λ e, Api.mkReply (failure_status e)
            (Api.ErrorBody "Error fetching commit diff" (Upstream.message e))).

(** ** Reference description of the parser's output

    The lines of a patch are cut at the header lines; the records of one hunk
    are numbered from a pair of counters.  These definitions follow the
    description of the algorithm, not the code: the theorems below relate
    [parsePatch] to them. *)

Inductive marker := Removed | Added | Context.

Definition marker_of (line : string) : marker :=
  if Str.startsWith "-" line then Removed
  else if Str.startsWith "+" line then Added
  else Context.

Global Instance marker_eq_dec : EqDecision marker.
Proof. solve_decision. Defined.

(** How many of the lines carry the marker [m]. *)
Definition count_marker (m : marker) (ls : list string) : Z :=
  Z.of_nat (length (filter (λ l, marker_of l = m) ls)).

Definition uses_base (line : string) : bool :=
  match marker_of line with Added => false | _ => true end.

Definition uses_head (line : string) : bool :=
  match marker_of line with Removed => false | _ => true end.

(** How many of the lines consume a base (head) line number. *)
Definition base_count (ls : list string) : nat :=
  length (filter (λ l, uses_base l = true) ls).

Definition head_count (ls : list string) : nat :=
  length (filter (λ l, uses_head l = true) ls).

Definition base_used (ls : list string) : Z := Z.of_nat (base_count ls).

Definition head_used (ls : list string) : Z := Z.of_nat (head_count ls).

Definition numbered (b h : Z) (line : string) : LineRecord :=
  match marker_of line with
  | Removed => mkLine (Some b) None line
  | Added => mkLine None (Some h) line
  | Context => mkLine (Some b) (Some h) line
  end.

Definition bump (bh : Z * Z) (line : string) : Z * Z :=
  match marker_of line with
  | Removed => (Js.succ bh.1, bh.2)
  | Added => (bh.1, Js.succ bh.2)
  | Context => (Js.succ bh.1, Js.succ bh.2)
  end.

(** The records of the lines [ls], numbered from the counters [bh]. *)
Fixpoint number_from (bh : Z * Z) (ls : list string) : list LineRecord :=
  match ls with
  | [] => []
  | l :: ls' => numbered bh.1 bh.2 l :: number_from (bump bh l) ls'
  end.

(** The lines up to the next header line. *)
Fixpoint body_of (ls : list string) : list string :=
  match ls with
  | [] => []
  | l :: ls' => if is_header l then [] else l :: body_of ls'
  end.

(** One segment per header line: the header and the lines that follow it up
    to the next header.  Lines before the first header are in no segment. *)
Fixpoint segments (ls : list string) : list (string * list string) :=
  match ls with
  | [] => []
  | l :: ls' => if is_header l then (l, body_of ls') :: segments ls' else segments ls'
  end.

(** The counters a hunk with header [hdr] starts from, [bh] being the counters
    before it. *)
Definition starts_or (hdr : string) (bh : Z * Z) : Z * Z :=
  match header_starts hdr with
  | Some s => s
  | None => bh
  end.

Fixpoint number_segments (bh : Z * Z) (segs : list (string * list string)) : list Hunk :=
  match segs with
  | [] => []
  | (hdr, body) :: rest =>
      mkHunk hdr (number_from (starts_or hdr bh) body)
        :: number_segments (fold_left bump body (starts_or hdr bh)) rest
  end.

(** A patch in which every header line has the documented form. *)
Definition well_formed (patch : string) : Prop :=
  ∀ l, l ∈ Str.split_nl patch → is_header l = true → is_Some (header_starts l).

(** The text a hunk is rebuilt from: its header, then the content of its
    records, joined by newlines. *)
Definition reconstruct (h : Hunk) : string :=
  Str.join_nl (header h :: map content (lines h)).

(** ** Sample inputs and derived views *)

(** The two counters of a state. *)
Definition counters (st : pstate) : Z * Z := (baseLine st, headLine st).

(** What the worked scenario parses to. *)
Definition scenario_hunk : Hunk :=
  mkHunk "@@ -1,2 +1,3 @@"
    [ mkLine (Some 1) (Some 1) " context";
      mkLine (Some 2) None "-old";
      mkLine None (Some 2) "+new1";
      mkLine None (Some 3) "+new2" ].

(** A well-formed patch with an added line before a context line. *)
Definition shifted_patch : string :=
  Str.join_nl ["@@ -1,1 +1,2 @@"; "+new"; " ctx"].

(** A header line followed by the lines of its hunk. *)
Definition seg_lines (seg : string * list string) : list string := seg.1 :: seg.2.

Definition seg_ok (seg : string * list string) : Prop :=
  is_header seg.1 = true ∧ Forall (λ l, is_header l = false) seg.2.

(** What a hunk keeps of the text: its header and the content of its records. *)
Definition hunk_text (h : Hunk) : string * list string :=
  (header h, map content (lines h)).

(** A patch with a stray first line and two hunks. *)
Definition two_hunk_patch : string :=
  Str.join_nl ["stray"; "@@ -1 +1 @@"; " a"; "+b"; "@@ -9 +10 @@"; "-c"].

(** The failure is a 403 whose remaining-quota header is "0". *)
Definition quota_failure (e : Upstream.Failure) : Prop :=
  ∃ r, Upstream.response e = Some r ∧ Upstream.status r = 403 ∧
       Upstream.headers r !! "x-ratelimit-remaining" = Some "0".

(** A runtime for the examples: ASCII capitalisation, and the TypeError text
    of V8. *)
Definition ascii_runtime : runtime :=
  mkRuntime Str.ascii_upper
    (λ name, "Cannot read properties of undefined (reading '" +:+ name +:+ "')").

(** The changed files of the sample compare result. *)
Definition sample_files : list Upstream.FileEntry :=
  [ Upstream.mkFile (Some "modified") "a.txt" (Some scenario_patch);
    Upstream.mkFile (Some "added") "logo.png" None ].

(** A service that knows one merge commit and one root commit. *)
Definition sample_api : Upstream.service := λ ep url,
  match ep with
  | Upstream.CommitLookup =>
      if decide (url = "/repos/o/r/commits/c3")
      then Upstream.Fulfilled
             (Upstream.mkCommit "c3" (Some [Upstream.mkParent "c1"; Upstream.mkParent "c2"]))
      else Upstream.Fulfilled (Upstream.mkCommit "c0" (Some []))
  | Upstream.CompareLookup =>
      if decide (url = "/repos/o/r/compare/c1...c3")
      then Upstream.Fulfilled (Upstream.mkCompare (Some sample_files))
      else Upstream.Rejected (Upstream.mkFailure None "unexpected compare call")
  end.

(** ** The documented form of a header line *)

(** The string holds decimal digits only. *)
Fixpoint all_digits (s : string) : bool :=
  match s with
  | EmptyString => true
  | String c s' => Str.is_digit c && all_digits s'
  end.

(** The optional line count of a header: nothing, or a comma and digits. *)
Definition count_part (m : string) : Prop :=
  m = "" ∨ ∃ c, m = "," +:+ c ∧ all_digits c = true.

(** A line of the form "@@ -d1[,c1] +d2[,c2] @@rest". *)
Definition header_text (d1 m1 d2 m2 rest : string) : string :=
  "@@ -" +:+ d1 +:+ m1 +:+ " +" +:+ d2 +:+ m2 +:+ " @@" +:+ rest.

(** The decimal numeral of a natural number, as the standard library
    prints it. *)
Definition numeral (n : N) : string := NilEmpty.string_of_uint (N.to_uint n).

(** The string does not start with a digit. *)
Definition no_digit_start (s : string) : Prop :=
  match s with
  | EmptyString => True
  | String c _ => Str.is_digit c = false
  end.

(** The text of a list of hunks: each header followed by the content of its
    records, all joined by newlines. *)
Definition hunk_source (h : Hunk) : list string := header h :: map content (lines h).

Definition unparse (hs : list Hunk) : string :=
  Str.join_nl (concat (map hunk_source hs)).

(** ** Number lemmas *)

Section numbers.

Lemma exact_limit_pow : Js.exact_limit = 2 ^ 53.
Proof. reflexivity. Qed.

Lemma limit_below_infinity : Js.exact_limit ≤ Js.infinity.
Proof.
  rewrite exact_limit_pow. unfold Js.infinity. apply Z.pow_le_mono_r; lia.
Qed.

Lemma round_exact n : n ≤ Js.exact_limit → Js.round n = n.
Proof. intros Hn. unfold Js.round. by rewrite (proj2 (Z.leb_le _ _) Hn). Qed.

Lemma round_large n : Js.exact_limit < n → Js.exact_limit ≤ Js.round n.
Proof.
  intros Hn. unfold Js.round. rewrite (proj2 (Z.leb_gt _ _) Hn). cbv zeta.
  assert (0 < n) as Hpos by (unfold Js.exact_limit in Hn; lia).
  pose proof (Z.log2_spec n Hpos) as [Hlo _].
  assert (53 ≤ Z.log2 n) as Hlog.
  { apply Z.log2_le_pow2; [done|]. rewrite <- exact_limit_pow. lia. }
  set (e := Z.log2 n - 52) in *.
  assert (1 ≤ e) as He by lia.
  assert (0 < 2 ^ e) as Hpe by (apply Z.pow_pos_nonneg; lia).
  assert (2 ≤ 2 ^ e) as Hpe2.
  { change 2 with (2 ^ 1) at 1. apply Z.pow_le_mono_r; lia. }
  assert (2 ^ 52 ≤ n / 2 ^ e) as Hq.
  { apply Z.div_le_lower_bound; [done|].
    rewrite <- Z.pow_add_r by lia. replace (e + 52) with (Z.log2 n) by lia. done. }
  set (q := n / 2 ^ e) in *.
  match goal with
  | |- context [if ?c then q + 1 else q] => set (q' := if c then q + 1 else q)
  end.
  assert (q ≤ q') as Hq' by (unfold q'; case_match; lia).
  assert (Js.exact_limit ≤ q' * 2 ^ e) as Hv.
  { rewrite exact_limit_pow. change (2 ^ 53) with (2 ^ 52 * 2). nia. }
  destruct (Js.infinity <=? q' * 2 ^ e); [apply limit_below_infinity|done].
Qed.

Lemma round_nonneg n : 0 ≤ n → 0 ≤ Js.round n.
Proof.
  intros Hn. destruct (decide (n ≤ Js.exact_limit)) as [Hle|Hgt].
  - by rewrite round_exact.
  - pose proof (round_large n). unfold Js.exact_limit in *. lia.
Qed.

Lemma succ_exact x : x < Js.exact_limit → Js.succ x = x + 1.
Proof. intros Hx. unfold Js.succ. apply round_exact. lia. Qed.

Lemma succ_below x : Js.succ x < Js.exact_limit → Js.succ x = x + 1.
Proof.
  intros Hs. destruct (decide (x < Js.exact_limit)) as [Hx|Hx]; [by apply succ_exact|].
  unfold Js.succ in *. pose proof (round_large (x + 1)). lia.
Qed.

Lemma succ_nonneg x : 0 ≤ x → 0 ≤ Js.succ x.
Proof. intros Hx. apply round_nonneg. lia. Qed.

Lemma advance_below n : ∀ x,
  Js.advance x n < Js.exact_limit → Js.advance x n = x + Z.of_nat n.
Proof.
  induction n as [|n IH]; intros x Hx; cbn [Js.advance] in *; [lia|].
  pose proof (IH _ Hx) as Heq. rewrite Heq in Hx |- *.
  rewrite succ_below by lia. lia.
Qed.

Lemma advance_exact n : ∀ x,
  x + Z.of_nat n ≤ Js.exact_limit → Js.advance x n = x + Z.of_nat n.
Proof.
  induction n as [|n IH]; intros x Hx; cbn [Js.advance]; [lia|].
  rewrite succ_exact by lia. rewrite IH by lia. lia.
Qed.

Lemma advance_nonneg n : ∀ x, 0 ≤ x → 0 ≤ Js.advance x n.
Proof. induction n as [|n IH]; intros x Hx; simpl; [done|]. by apply IH, succ_nonneg. Qed.

Lemma run_exact n : ∀ x,
  x + Z.of_nat n ≤ Js.exact_limit → Js.run x n = seqZ x (Z.of_nat n).
Proof.
  induction n as [|n IH]; intros x Hx; [done|].
  cbn [Js.run]. rewrite seqZ_cons by lia. rewrite succ_exact by lia.
  rewrite IH by lia. f_equal. f_equal; lia.
Qed.

(** Rounding at and above 2^53, and at the largest double. *)
Example rounding :
  Js.round 9007199254740993 = 9007199254740992 ∧
  Js.succ 9007199254740992 = 9007199254740992 ∧
  Js.succ 9007199254740994 = 9007199254740996 ∧
  Js.round 9007199254740995 = 9007199254740996 ∧
  Js.round (10 ^ 400) = Js.infinity ∧
  Js.succ Js.infinity = Js.infinity ∧
  Js.round (2 ^ 1024 - 2 ^ 970 - 1) = 2 ^ 1024 - 2 ^ 971 ∧
  Js.round (2 ^ 1024 - 2 ^ 970) = Js.infinity.
Proof. vm_compute. done. Qed.

End numbers.

(** ** String lemmas *)

Section strings.

Lemma split_nl_nonempty s : Str.split_nl s ≠ [].
Proof.
  destruct s as [|c s]; simpl; [done|].
  case_decide; [done|]. by destruct (Str.split_nl s).
Qed.

Lemma split_nl_one_line s : Forall Str.one_line (Str.split_nl s).
Proof.
  induction s as [|c s IH]; simpl.
  - by repeat constructor.
  - case_decide.
    + by constructor.
    + destruct (Str.split_nl s) as [|l ls]; [by repeat constructor|].
      inversion_clear IH. by constructor.
Qed.

Lemma split_nl_line l : Str.one_line l → Str.split_nl l = [l].
Proof.
  induction l as [|c l IH]; simpl; [done|].
  intros [Hc Hl]. rewrite decide_False by done. by rewrite IH.
Qed.

Lemma split_nl_app l s :
  Str.one_line l →
  Str.split_nl (l +:+ Str.nl +:+ s) = l :: Str.split_nl s.
Proof.
  induction l as [|c l IH]; simpl.
  - intros _. reflexivity.
  - intros [Hc Hl]. rewrite decide_False by done. by rewrite IH.
Qed.

(** Joining lines and splitting again gives the lines back. *)
Lemma split_join ls :
  ls ≠ [] → Forall Str.one_line ls → Str.split_nl (Str.join_nl ls) = ls.
Proof.
  induction ls as [|l ls IH]; [done|].
  intros _ Hall. inversion_clear Hall as [|? ? Hl Hls].
  destruct ls as [|l' ls].
  - by apply split_nl_line.
  - change (Str.join_nl (l :: l' :: ls)) with (l +:+ Str.nl +:+ Str.join_nl (l' :: ls)).
    rewrite split_nl_app by done. f_equal. by apply IH.
Qed.

End strings.

(** ** The parser against its reference description *)

Section parser.

Lemma step_header st l :
  is_header l = true →
  step st l =
    mkState (flush st) (Some (mkHunk l []))
      (starts_or l (counters st)).1 (starts_or l (counters st)).2.
Proof.
  intros Hl. unfold step, starts_or, counters. rewrite Hl.
  by destruct (header_starts l).
Qed.

Lemma step_closed st l :
  is_header l = false → currentHunk st = None → step st l = st.
Proof. intros Hl Hc. unfold step. by rewrite Hl, Hc. Qed.

Lemma step_open st cur l :
  is_header l = false → currentHunk st = Some cur →
  step st l =
    mkState (hunks st)
      (Some (mkHunk (header cur)
               (lines cur ++ [numbered (baseLine st) (headLine st) l])))
      (bump (counters st) l).1 (bump (counters st) l).2.
Proof.
  intros Hl Hc. unfold step, numbered, bump, marker_of, counters.
  rewrite Hl, Hc.
  destruct (Str.startsWith "-" l); [done|].
  by destruct (Str.startsWith "+" l).
Qed.

Lemma pair_eta (bh : Z * Z) : (bh.1, bh.2) = bh.
Proof. by destruct bh. Qed.

Lemma counters_mk hs c b h : counters (mkState hs c b h) = (b, h).
Proof. reflexivity. Qed.

(** What the loop followed by the final push returns, from any state. *)
Lemma flush_fold ls : ∀ st,
  flush (fold_left step ls st) =
    match currentHunk st with
    | None => hunks st ++ number_segments (counters st) (segments ls)
    | Some cur =>
        hunks st ++
          mkHunk (header cur) (lines cur ++ number_from (counters st) (body_of ls))
          :: number_segments (fold_left bump (body_of ls) (counters st)) (segments ls)
    end.
Proof.
  induction ls as [|l ls IH]; intros st.
  - unfold flush. simpl. destruct (currentHunk st) as [[hdr lns]|]; simpl.
    + by rewrite app_nil_r.
    + by rewrite app_nil_r.
  - cbn [fold_left segments body_of].
    destruct (is_header l) eqn:Hl.
    + rewrite IH, (step_header _ _ Hl).
      cbn [currentHunk hunks header lines counters baseLine headLine
           number_segments app fold_left number_from].
      rewrite counters_mk, pair_eta. unfold flush.
      destruct (currentHunk st) as [[hdr lns]|]; cbn [header lines].
      * by rewrite app_nil_r, <- app_assoc.
      * done.
    + destruct (currentHunk st) as [cur|] eqn:Hc.
      * rewrite IH, (step_open _ cur _ Hl Hc).
        cbn [currentHunk hunks header lines counters baseLine headLine
             number_from fold_left].
        rewrite counters_mk, pair_eta, <- app_assoc. done.
      * rewrite (step_closed _ _ Hl Hc), IH, Hc. done.
Qed.

Theorem parseLines_spec ls :
  parseLines ls = number_segments (0, 0) (segments ls).
Proof. unfold parseLines. by rewrite flush_fold. Qed.

(** *** Facts about the reference description *)

Lemma content_numbered b h l : content (numbered b h l) = l.
Proof. unfold numbered. by destruct (marker_of l). Qed.

Lemma content_number_from ls : ∀ bh, map content (number_from bh ls) = ls.
Proof.
  induction ls as [|l ls IH]; intros bh; simpl; [done|].
  by rewrite content_numbered, IH.
Qed.

Lemma length_number_from ls : ∀ bh, length (number_from bh ls) = length ls.
Proof. induction ls as [|l ls IH]; intros bh; simpl; [done|]. by rewrite IH. Qed.

Lemma base_count_cons l ls :
  base_count (l :: ls) = if uses_base l then S (base_count ls) else base_count ls.
Proof.
  unfold base_count. rewrite filter_cons.
  destruct (uses_base l); case_decide; done.
Qed.

Lemma head_count_cons l ls :
  head_count (l :: ls) = if uses_head l then S (head_count ls) else head_count ls.
Proof.
  unfold head_count. rewrite filter_cons.
  destruct (uses_head l); case_decide; done.
Qed.

Lemma base_used_cons l ls :
  base_used (l :: ls) = (if uses_base l then 1 else 0) + base_used ls.
Proof.
  unfold base_used, base_count. rewrite filter_cons.
  destruct (uses_base l); case_decide; try done; simpl length; lia.
Qed.

Lemma head_used_cons l ls :
  head_used (l :: ls) = (if uses_head l then 1 else 0) + head_used ls.
Proof.
  unfold head_used, head_count. rewrite filter_cons.
  destruct (uses_head l); case_decide; try done; simpl length; lia.
Qed.

(** The [j]-th record of a hunk body is numbered with the start counters
    after the increments of the lines before it. *)
Lemma lookup_number_from ls : ∀ bh j r,
  number_from bh ls !! j = Some r →
  ∃ l, ls !! j = Some l ∧
       r = numbered (Js.advance bh.1 (base_count (take j ls)))
                    (Js.advance bh.2 (head_count (take j ls))) l.
Proof.
  induction ls as [|l ls IH]; intros bh j r; [done|].
  destruct j as [|j]; simpl.
  - intros [= <-]. by exists l.
  - intros Hr. destruct (IH _ _ _ Hr) as (l' & Hl' & ->).
    exists l'. split; [done|].
    rewrite base_count_cons, head_count_cons.
    unfold bump, uses_base, uses_head.
    by destruct (marker_of l).
Qed.

Lemma body_of_not_header ls : Forall (λ l, is_header l = false) (body_of ls).
Proof.
  induction ls as [|l ls IH]; simpl; [constructor|].
  destruct (is_header l) eqn:Hl; by constructor.
Qed.

Lemma body_of_sub ls l : l ∈ body_of ls → l ∈ ls.
Proof.
  induction ls as [|l' ls IH]; simpl; [done|].
  destruct (is_header l'); [by rewrite elem_of_nil|].
  rewrite !elem_of_cons. intros [->|Hin]; [by left|right; auto].
Qed.

Lemma segments_elem ls hdr body :
  (hdr, body) ∈ segments ls →
  hdr ∈ ls ∧ is_header hdr = true ∧
  Forall (λ l, is_header l = false) body ∧ (∀ l, l ∈ body → l ∈ ls).
Proof.
  induction ls as [|l ls IH]; simpl; [by rewrite elem_of_nil|].
  destruct (is_header l) eqn:Hl.
  - rewrite elem_of_cons. intros [[= -> ->]|Hin].
    + split; [left|]. split; [done|]. split; [apply body_of_not_header|].
      intros l' Hl'. right. by apply body_of_sub.
    + destruct (IH Hin) as (? & ? & ? & Hsub).
      split; [by right|]. do 2 (split; [done|]). intros l' Hl'. right. eauto.
  - intros Hin. destruct (IH Hin) as (? & ? & ? & Hsub).
    split; [by right|]. do 2 (split; [done|]). intros l' Hl'. right. eauto.
Qed.

(** Every hunk of the output is a segment numbered from some counters, which
    are the header's start numbers when the header has the documented form. *)
Lemma number_segments_elem segs : ∀ bh h,
  h ∈ number_segments bh segs →
  ∃ bh0 body,
    (header h, body) ∈ segs ∧
    h = mkHunk (header h) (number_from (starts_or (header h) bh0) body).
Proof.
  induction segs as [|[hdr body] segs IH]; intros bh h; simpl.
  - by rewrite elem_of_nil.
  - rewrite elem_of_cons. intros [->|Hin].
    + exists bh, body. simpl. split; [left|done].
    + destruct (IH _ _ Hin) as (bh0 & body' & Hseg & Hh).
      exists bh0, body'. split; [by right|done].
Qed.

Lemma parsePatch_hunk patch h :
  h ∈ parsePatch patch →
  ∃ bh0 body,
    (header h, body) ∈ segments (Str.split_nl patch) ∧
    lines h = number_from (starts_or (header h) bh0) body.
Proof.
  unfold parsePatch. rewrite parseLines_spec. intros Hin.
  destruct (number_segments_elem _ _ _ Hin) as (bh0 & body & Hseg & Hh).
  exists bh0, body. split; [done|]. rewrite Hh at 1. done.
Qed.

Lemma count_marker_cons m l ls :
  count_marker m (l :: ls) =
    (if decide (marker_of l = m) then 1 else 0) + count_marker m ls.
Proof.
  unfold count_marker. rewrite filter_cons.
  case_decide; simpl length; lia.
Qed.

(** Added lines consume no base number, removed lines no head number. *)
Lemma used_difference ls :
  head_used ls - base_used ls = count_marker Added ls - count_marker Removed ls.
Proof.
  induction ls as [|l ls IH]; [done|].
  rewrite base_used_cons, head_used_cons, !count_marker_cons.
  unfold uses_base, uses_head.
  destruct (marker_of l); repeat case_decide; try done; lia.
Qed.

Lemma body_of_id body tail :
  Forall (λ l, is_header l = false) body →
  (∀ l t, tail = l :: t → is_header l = true) →
  body_of (body ++ tail) = body.
Proof.
  intros Hb Ht. induction Hb as [|l body Hl _ IH]; simpl.
  - destruct tail as [|l t]; [done|]. simpl. by rewrite (Ht l t).
  - by rewrite Hl, IH.
Qed.

Lemma segments_skip pre tail :
  Forall (λ l, is_header l = false) pre → segments (pre ++ tail) = segments tail.
Proof. intros Hp. induction Hp as [|l pre Hl _ IH]; simpl; [done|]. by rewrite Hl. Qed.

(** The loop over the lines of one hunk body. *)
Lemma fold_body body : ∀ st cur,
  Forall (λ l, is_header l = false) body →
  currentHunk st = Some cur →
  fold_left step body st =
    mkState (hunks st)
      (Some (mkHunk (header cur) (lines cur ++ number_from (counters st) body)))
      (fold_left bump body (counters st)).1 (fold_left bump body (counters st)).2.
Proof.
  induction body as [|l body IH]; intros st cur Hb Hc.
  - simpl. rewrite app_nil_r. destruct st as [hs c b h], cur as [hdr lns].
    simpl in *. by subst.
  - inversion_clear Hb as [|? ? Hl Hb'].
    cbn [fold_left number_from]. rewrite (step_open _ cur _ Hl Hc).
    erewrite IH; [|done|reflexivity].
    cbn [hunks header lines]. rewrite counters_mk, pair_eta, <- app_assoc. done.
Qed.

Lemma plus_not_minus l :
  Str.startsWith "+" l = true → Str.startsWith "-" l = false.
Proof.
  destruct l as [|c l]; simpl; [done|].
  repeat case_decide; try done. by subst.
Qed.

End parser.

(** ** Properties of the patch parser *)

Section parser_properties.

Implicit Types (patch : string) (h : Hunk) (r : LineRecord).

Abbreviation not_header := (λ l : string, is_header l = false).

(** C1: the patch "@@ -1,2 +1,3 @@", " context", "-old", "+new1", "+new2"
    (joined by newlines) parses to exactly one hunk with that header and the
    records (1,1) for the context line, (2,absent) for the removed line and
    (absent,2), (absent,3) for the two added lines, in this order. *)
Theorem parsePatch_scenario : parsePatch scenario_patch = [scenario_hunk].
Proof. vm_compute. reflexivity. Qed.

(** The scenario patch, written out as one text. *)
Example scenario_patch_text :
  scenario_patch = "@@ -1,2 +1,3 @@
 context
-old
+new1
+new2".
Proof. reflexivity. Qed.

(** The records of a hunk are the numbering of their own contents. *)
Lemma hunk_lines patch i h :
  parsePatch patch !! i = Some h →
  ∃ bh0, lines h = number_from (starts_or (header h) bh0) (map content (lines h)).
Proof.
  intros Hi. apply list_elem_of_lookup_2, parsePatch_hunk in Hi.
  destruct Hi as (bh0 & body & _ & Hlines).
  exists bh0. rewrite Hlines at 2. by rewrite content_number_from.
Qed.

Lemma hunk_record patch i h :
  parsePatch patch !! i = Some h →
  ∃ bh0, ∀ j r, lines h !! j = Some r →
    r = numbered
          (Js.advance (starts_or (header h) bh0).1
             (base_count (map content (take j (lines h)))))
          (Js.advance (starts_or (header h) bh0).2
             (head_count (map content (take j (lines h)))))
          (content r).
Proof.
  intros Hi. destruct (hunk_lines _ _ _ Hi) as [bh0 Hlines].
  exists bh0. intros j r Hr.
  rewrite Hlines in Hr. apply lookup_number_from in Hr.
  destruct Hr as (l & Hl & Hr).
  assert (content r = l) as -> by (rewrite Hr; apply content_numbered).
  by rewrite <- firstn_map.
Qed.

(** C2: in every hunk the parser produces there are start counters [b0],
    [h0] such that, the running base (head) counter at a record being [b0]
    ([h0]) after one increment [++] for each earlier line of the hunk that
    consumed a base (head) number: a record whose content starts with '-'
    has the running base counter as baseLineNumber and no headLineNumber;
    one whose content starts with '+' has the running head counter as
    headLineNumber and no baseLineNumber; any other record has both; and no
    record has both numbers absent.  The increments are those of JavaScript
    numbers: as long as the sum does not exceed 2^53, the running counter is
    the start counter plus the number of those earlier lines. *)
Theorem line_numbers_by_marker patch i h :
  parsePatch patch !! i = Some h →
  ∃ b0 h0 : Z, ∀ j r, lines h !! j = Some r →
    let before := map content (take j (lines h)) in
    let b := Js.advance b0 (base_count before) in
    let hd := Js.advance h0 (head_count before) in
    (Str.startsWith "-" (content r) = true →
       baseLineNumber r = Some b ∧ headLineNumber r = None) ∧
    (Str.startsWith "+" (content r) = true →
       headLineNumber r = Some hd ∧ baseLineNumber r = None) ∧
    (Str.startsWith "-" (content r) = false →
     Str.startsWith "+" (content r) = false →
       baseLineNumber r = Some b ∧ headLineNumber r = Some hd) ∧
    ¬ (baseLineNumber r = None ∧ headLineNumber r = None) ∧
    (b0 + base_used before ≤ Js.exact_limit → b = b0 + base_used before) ∧
    (h0 + head_used before ≤ Js.exact_limit → hd = h0 + head_used before).
Proof.
  intros Hi. destruct (hunk_record _ _ _ Hi) as [bh0 Hrec].
  exists (starts_or (header h) bh0).1, (starts_or (header h) bh0).2.
  intros j r Hr. specialize (Hrec j r Hr). cbv zeta.
  revert Hrec. generalize (map content (take j (lines h))). intros before Hrec.
  pose proof (plus_not_minus (content r)) as Hpm.
  assert (∀ x n, x + Z.of_nat n ≤ Js.exact_limit → Js.advance x n = x + Z.of_nat n)
    as Hexact by (intros; by apply advance_exact).
  destruct r as [rb rh rc]. unfold numbered, marker_of in Hrec.
  cbn [content baseLineNumber headLineNumber] in *.
  destruct (Str.startsWith "-" rc) eqn:Hm.
  - injection Hrec as -> ->. split_and!; try done; try (by apply Hexact).
    + intros Hp. by apply Hpm in Hp.
    + by intros [? ?].
  - destruct (Str.startsWith "+" rc) eqn:Hp.
    + injection Hrec as -> ->. split_and!; try done; try (by apply Hexact).
      by intros [? ?].
    + injection Hrec as -> ->. split_and!; try done; try (by apply Hexact).
      by intros [? ?].
Qed.

Lemma line_numbers_by_marker_witness :
  ∃ b0 h0 : Z, ∀ j r, lines scenario_hunk !! j = Some r →
    let before := map content (take j (lines scenario_hunk)) in
    let b := Js.advance b0 (base_count before) in
    let hd := Js.advance h0 (head_count before) in
    (Str.startsWith "-" (content r) = true →
       baseLineNumber r = Some b ∧ headLineNumber r = None) ∧
    (Str.startsWith "+" (content r) = true →
       headLineNumber r = Some hd ∧ baseLineNumber r = None) ∧
    (Str.startsWith "-" (content r) = false →
     Str.startsWith "+" (content r) = false →
       baseLineNumber r = Some b ∧ headLineNumber r = Some hd) ∧
    ¬ (baseLineNumber r = None ∧ headLineNumber r = None) ∧
    (b0 + base_used before ≤ Js.exact_limit → b = b0 + base_used before) ∧
    (h0 + head_used before ≤ Js.exact_limit → hd = h0 + head_used before).
Proof.
  apply (line_numbers_by_marker scenario_patch 0%nat scenario_hunk).
  vm_compute. reflexivity.
Defined.

(** Past 2^53 the increment no longer adds one: three removed lines under a
    header that starts at 2^53 - 1. *)
Example line_numbers_past_exact_limit :
  parsePatch (Str.join_nl ["@@ -9007199254740991 +1 @@"; "-a"; "-b"; "-c"]) =
    [ mkHunk "@@ -9007199254740991 +1 @@"
        [ mkLine (Some 9007199254740991) None "-a";
          mkLine (Some 9007199254740992) None "-b";
          mkLine (Some 9007199254740992) None "-c" ] ].
Proof. vm_compute. reflexivity. Qed.

(** *** Context lines and the header's start numbers *)

(** C4, as stated, fails: in the one hunk of [shifted_patch] the header
    gives baseStart 1 and headStart 1, a delta of 0, while the context line
    " ctx", which follows an added line, carries base 1 and head 2. *)
Lemma context_delta_counterexample :
  let h := mkHunk "@@ -1,1 +1,2 @@"
             [ mkLine None (Some 1) "+new"; mkLine (Some 1) (Some 2) " ctx" ] in
  let r := mkLine (Some 1) (Some 2) " ctx" in
  parsePatch shifted_patch = [h] ∧
  lines h !! 1%nat = Some r ∧
  header_starts (header h) = Some (1, 1) ∧
  ¬ (∀ b hd bs hs,
       baseLineNumber r = Some b → headLineNumber r = Some hd →
       header_starts (header h) = Some (bs, hs) →
       hd - b = hs - bs).
Proof.
  cbv zeta. split; [vm_compute; reflexivity|]. split; [reflexivity|].
  split; [vm_compute; reflexivity|].
  intros Hclaim.
  specialize (Hclaim 1 2 1 1 eq_refl eq_refl).
  assert (header_starts "@@ -1,1 +1,2 @@" = Some (1, 1)) as Hs
    by (vm_compute; reflexivity).
  specialize (Hclaim Hs). discriminate Hclaim.
Qed.

(** C4, amended: in a hunk whose header has the documented form, with start
    numbers [bs] and [hs], a context record whose two line numbers are below
    2^53 has headLineNumber minus baseLineNumber equal to [hs - bs] plus the
    number of added lines minus the number of removed lines that precede it
    in the hunk. *)
Theorem context_delta patch i h j r b hd bs hs :
  parsePatch patch !! i = Some h →
  header_starts (header h) = Some (bs, hs) →
  lines h !! j = Some r →
  baseLineNumber r = Some b →
  headLineNumber r = Some hd →
  b < Js.exact_limit →
  hd < Js.exact_limit →
  let before := map content (take j (lines h)) in
  hd - b = (hs - bs) + count_marker Added before - count_marker Removed before.
Proof.
  intros Hi Hhdr Hr Hb Hh Hblim Hhlim before.
  destruct (hunk_record _ _ _ Hi) as [bh0 Hrec].
  specialize (Hrec j r Hr). fold before in Hrec.
  unfold starts_or in Hrec. rewrite Hhdr in Hrec. cbn [fst snd] in Hrec.
  pose proof (used_difference before) as Hd.
  destruct r as [rb rh rc]. cbn [content baseLineNumber headLineNumber] in *.
  subst rb rh. unfold numbered in Hrec.
  destruct (marker_of rc); try discriminate.
  injection Hrec as Hbeq Hheq.
  rewrite Hbeq in Hblim. rewrite Hheq in Hhlim.
  rewrite (advance_below _ _ Hblim) in Hbeq.
  rewrite (advance_below _ _ Hhlim) in Hheq.
  unfold base_used, head_used in Hd. lia.
Qed.

Lemma context_delta_witness :
  2 - 1 = (1 - 1) + count_marker Added ["+new"] - count_marker Removed ["+new"].
Proof.
  apply (context_delta shifted_patch 0%nat
           (mkHunk "@@ -1,1 +1,2 @@"
              [ mkLine None (Some 1) "+new"; mkLine (Some 1) (Some 2) " ctx" ])
           1%nat (mkLine (Some 1) (Some 2) " ctx") 1 2 1 1);
    vm_compute; reflexivity.
Defined.

(** Without the bound the equation is lost: under a header that starts the
    base side at 2^53 the base counter no longer moves. *)
Example context_delta_past_exact_limit :
  parsePatch (Str.join_nl ["@@ -9007199254740992 +1 @@"; " a"; " b"]) =
    [ mkHunk "@@ -9007199254740992 +1 @@"
        [ mkLine (Some 9007199254740992) (Some 1) " a";
          mkLine (Some 9007199254740992) (Some 2) " b" ] ].
Proof. vm_compute. reflexivity. Qed.

(** A hunk under a header that does not have the documented form keeps the
    delta of the counters it inherits, not one read from its own header. *)
Example malformed_header_delta :
  parsePatch (Str.join_nl ["@@ -1 +5 @@"; " a"; "@@ oops"; " b"]) =
    [ mkHunk "@@ -1 +5 @@" [ mkLine (Some 1) (Some 5) " a" ];
      mkHunk "@@ oops" [ mkLine (Some 2) (Some 6) " b" ] ] ∧
  header_starts "@@ oops" = None.
Proof. vm_compute. done. Qed.

(** *** Re-parsing a hunk *)

Lemma not_header_body body :
  Forall not_header body → body_of body = body ∧ segments body = [].
Proof.
  intros Hb. split.
  - rewrite <- (app_nil_r body) at 1. by apply body_of_id.
  - rewrite <- (app_nil_r body). by rewrite segments_skip.
Qed.

(** A hunk whose own header has the documented form is a fixed point of
    rebuilding its text and parsing it again. *)
Lemma reparse_matching_header patch i h :
  parsePatch patch !! i = Some h →
  is_Some (header_starts (header h)) →
  parsePatch (reconstruct h) = [h].
Proof.
  intros Hi [s Hs].
  apply list_elem_of_lookup_2, parsePatch_hunk in Hi.
  destruct Hi as (bh0 & body & Hseg & Hlines).
  apply segments_elem in Hseg as (Hhdr & His & Hbody & Hsub).
  pose proof (split_nl_one_line patch) as Hone.
  rewrite Forall_forall in Hone.
  unfold reconstruct, parsePatch.
  rewrite Hlines, content_number_from, split_join; [|done|].
  - rewrite parseLines_spec. cbn [segments]. rewrite His.
    destruct (not_header_body body Hbody) as [-> ->]. cbn [number_segments].
    destruct h as [hdr lns]. cbn [header lines] in *. subst lns.
    unfold starts_or. by rewrite Hs.
  - constructor; [by apply Hone|]. apply Forall_forall. auto.
Qed.

(** C5: for a patch in which every header line has the documented form,
    parsing the text rebuilt from any hunk of the result (its header, then
    the content of its records, joined by newlines) yields that hunk alone,
    hence the same sequence of records. *)
Theorem reparse_hunk patch i h :
  well_formed patch →
  parsePatch patch !! i = Some h →
  parsePatch (reconstruct h) = [h].
Proof.
  intros Hwf Hi. apply (reparse_matching_header patch i h Hi).
  pose proof Hi as Hin.
  apply list_elem_of_lookup_2, parsePatch_hunk in Hin.
  destruct Hin as (bh0 & body & Hseg & _).
  apply segments_elem in Hseg as (Hhdr & His & _).
  by apply Hwf.
Qed.

Lemma scenario_well_formed : well_formed scenario_patch.
Proof.
  intros l Hl Hh. vm_compute in Hl.
  repeat (apply elem_of_cons in Hl as [->|Hl]; [try discriminate Hh|]).
  - vm_compute. eauto.
  - by apply elem_of_nil in Hl.
Defined.

Lemma reparse_hunk_witness : parsePatch (reconstruct scenario_hunk) = [scenario_hunk].
Proof.
  apply (reparse_hunk scenario_patch 0%nat scenario_hunk).
  - exact scenario_well_formed.
  - vm_compute. reflexivity.
Defined.

(** Without the form of the header the round trip is lost: the second hunk
    below was numbered from the counters of the first, and on its own it is
    numbered from 0. *)
Example reparse_malformed_header :
  let patch := Str.join_nl ["@@ -1 +5 @@"; " a"; "@@ oops"; " b"] in
  let h := mkHunk "@@ oops" [ mkLine (Some 2) (Some 6) " b" ] in
  parsePatch patch !! 1%nat = Some h ∧
  parsePatch (reconstruct h) = [ mkHunk "@@ oops" [ mkLine (Some 0) (Some 0) " b" ] ].
Proof. vm_compute. done. Qed.

(** *** Header lines that do not have the documented form *)

(** C6: on a line that starts with "@@" and does not match the header
    pattern, the parser pushes the open hunk (if any) to the output, opens
    a hunk whose header is that line, and leaves both counters as they
    were; the lines that follow, up to the next header, are numbered from
    those counters. *)
Theorem malformed_header_keeps_counters st l body :
  is_header l = true →
  header_starts l = None →
  Forall not_header body →
  step st l = mkState (flush st) (Some (mkHunk l [])) (baseLine st) (headLine st) ∧
  flush st = match currentHunk st with
             | Some cur => hunks st ++ [cur]
             | None => hunks st
             end ∧
  currentHunk (fold_left step body (step st l)) =
    Some (mkHunk l (number_from (baseLine st, headLine st) body)).
Proof.
  intros Hl Hnone Hbody.
  assert (step st l = mkState (flush st) (Some (mkHunk l [])) (baseLine st) (headLine st))
    as Hstep.
  { rewrite (step_header _ _ Hl). unfold starts_or, counters. by rewrite Hnone. }
  split; [done|]. split; [reflexivity|].
  rewrite Hstep.
  rewrite (fold_body body (mkState (flush st) (Some (mkHunk l [])) (baseLine st) (headLine st))
             (mkHunk l []) Hbody eq_refl).
  reflexivity.
Qed.

Lemma malformed_header_keeps_counters_witness :
  let st := mkState [] (Some (mkHunk "@@ -7 +9 @@" [])) 7 9 in
  step st "@@ oops" =
    mkState [mkHunk "@@ -7 +9 @@" []] (Some (mkHunk "@@ oops" [])) 7 9 ∧
  flush st = [mkHunk "@@ -7 +9 @@" []] ∧
  currentHunk (fold_left step ["-x"; " y"] (step st "@@ oops")) =
    Some (mkHunk "@@ oops"
            [ mkLine (Some 7) None "-x"; mkLine (Some 8) (Some 9) " y" ]).
Proof.
  apply (malformed_header_keeps_counters
           (mkState [] (Some (mkHunk "@@ -7 +9 @@" [])) 7 9) "@@ oops" ["-x"; " y"]).
  - reflexivity.
  - vm_compute. reflexivity.
  - repeat constructor.
Defined.

(** The counters a header of the wrong form inherits may have passed 2^53:
    they are kept as they are, and stay where the increment leaves them. *)
Example malformed_header_past_exact_limit :
  parsePatch (Str.join_nl ["@@ -9007199254740992 +1 @@"; "@@ oops"; " a"; " b"]) =
    [ mkHunk "@@ -9007199254740992 +1 @@" [];
      mkHunk "@@ oops"
        [ mkLine (Some 9007199254740992) (Some 1) " a";
          mkLine (Some 9007199254740992) (Some 2) " b" ] ].
Proof. vm_compute. reflexivity. Qed.

(** *** Segmentation *)

Lemma segments_flatten segs :
  Forall seg_ok segs → segments (concat (map seg_lines segs)) = segs.
Proof.
  induction 1 as [|[hdr body] segs [Hh Hb] Hsegs IH]; [done|].
  cbn [map concat seg_lines fst snd app segments] in *. rewrite Hh.
  rewrite segments_skip, IH by done. f_equal. f_equal.
  apply body_of_id; [done|].
  intros l t Ht. destruct Hsegs as [|[hdr' body'] segs' [Hh' _] _]; [done|].
  cbn [map concat seg_lines fst snd app] in Ht. by injection Ht as <- _.
Qed.

Lemma hunk_text_number_segments segs : ∀ bh,
  map hunk_text (number_segments bh segs) = segs.
Proof.
  induction segs as [|[hdr body] segs IH]; intros bh; [done|].
  cbn [number_segments map]. rewrite IH. unfold hunk_text at 1.
  cbn [header lines]. by rewrite content_number_from.
Qed.

(** Every text splits into lines before the first header and header-led
    segments. *)
Lemma lines_decomposition ls :
  ls = body_of ls ++ concat (map seg_lines (segments ls)) ∧
  Forall seg_ok (segments ls).
Proof.
  induction ls as [|l ls [IH1 IH2]]; [by split|].
  cbn [body_of segments]. destruct (is_header l) eqn:Hl.
  - split.
    + cbn [map concat seg_lines fst snd app]. by rewrite <- IH1.
    + constructor; [|done]. split; [done|]. apply body_of_not_header.
  - split; [|done]. cbn [app]. by rewrite <- IH1.
Qed.

(** C7: however the lines of the patch split into lines [pre] without
    header followed by segments, each a header line and the non-header
    lines up to the next header, the parser returns one hunk per segment,
    in this order, whose header is the segment's header line and whose
    records hold the segment's lines in order; the lines of [pre] are in no
    hunk, and the last segment is in the output. *)
Theorem hunk_segmentation patch pre segs :
  Str.split_nl patch = pre ++ concat (map seg_lines segs) →
  Forall not_header pre →
  Forall seg_ok segs →
  map hunk_text (parsePatch patch) = segs ∧
  map header (parsePatch patch) = filter (λ l, is_header l = true) (Str.split_nl patch).
Proof.
  intros Hsplit Hpre Hsegs.
  assert (map hunk_text (parsePatch patch) = segs) as Htext.
  { unfold parsePatch. rewrite parseLines_spec, hunk_text_number_segments.
    rewrite Hsplit, segments_skip by done. by apply segments_flatten. }
  split; [done|].
  transitivity (map fst (map hunk_text (parsePatch patch))).
  { rewrite map_map. done. }
  rewrite Htext, Hsplit. clear Htext Hsplit.
  rewrite filter_app.
  assert (filter (λ l, is_header l = true) pre = []) as ->.
  { induction Hpre as [|l pre Hl _ IH]; [done|].
    rewrite filter_cons, decide_False; [done|]. by rewrite Hl. }
  cbn [app].
  induction Hsegs as [|[hdr body] segs [Hh Hb] _ IH]; [done|].
  cbn [map concat seg_lines fst snd app] in *.
  rewrite filter_cons, decide_True by done. f_equal.
  rewrite filter_app, <- IH.
  assert (filter (λ l, is_header l = true) body = []) as ->; [|done].
  clear -Hb. induction Hb as [|l body Hl _ IH]; [done|].
  rewrite filter_cons, decide_False; [done|]. by rewrite Hl.
Qed.

Lemma hunk_segmentation_witness :
  map hunk_text (parsePatch two_hunk_patch) =
    [("@@ -1 +1 @@", [" a"; "+b"]); ("@@ -9 +10 @@", ["-c"])] ∧
  map header (parsePatch two_hunk_patch) =
    filter (λ l, is_header l = true) (Str.split_nl two_hunk_patch).
Proof.
  apply (hunk_segmentation two_hunk_patch ["stray"]
           [("@@ -1 +1 @@", [" a"; "+b"]); ("@@ -9 +10 @@", ["-c"])]).
  - vm_compute. reflexivity.
  - repeat constructor.
  - repeat constructor.
Defined.

(** *** The counters before the first header *)

(** C10: both counters start at 0, so when the first header line of the
    patch does not match the header pattern, the records of the first hunk
    are numbered from 0: the line after that header gets 0 on each side it
    has a number on, (0, 0) when it is a context line. *)
Theorem first_malformed_header_counts_from_zero patch pre hdr l rest :
  Str.split_nl patch = pre ++ hdr :: l :: rest →
  Forall not_header pre →
  is_header hdr = true →
  header_starts hdr = None →
  is_header l = false →
  baseLine init = 0 ∧ headLine init = 0 ∧
  ∃ h, parsePatch patch !! 0%nat = Some h ∧
       header h = hdr ∧
       lines h = number_from (0, 0) (body_of (l :: rest)) ∧
       lines h !! 0%nat =
         Some (mkLine (if Str.startsWith "+" l then None else Some 0)
                      (if Str.startsWith "-" l then None else Some 0) l).
Proof.
  intros Hsplit Hpre Hhdr Hnone Hl. split; [done|]. split; [done|].
  unfold parsePatch. rewrite parseLines_spec, Hsplit, segments_skip by done.
  cbn [segments]. rewrite Hhdr. cbn [number_segments].
  unfold starts_or. rewrite Hnone.
  eexists. split; [reflexivity|]. cbn [header lines]. split; [done|].
  split; [done|].
  cbn [body_of]. rewrite Hl. cbn [number_from lookup list_lookup fst snd].
  unfold numbered, marker_of.
  pose proof (plus_not_minus l) as Hpm.
  destruct (Str.startsWith "-" l) eqn:Hm.
  - destruct (Str.startsWith "+" l); [by discriminate Hpm|done].
  - by destruct (Str.startsWith "+" l).
Qed.

Lemma first_malformed_header_counts_from_zero_witness :
  baseLine init = 0 ∧ headLine init = 0 ∧
  ∃ h, parsePatch (Str.join_nl ["@@ oops"; " ctx"; "+new"]) !! 0%nat = Some h ∧
       header h = "@@ oops" ∧
       lines h = number_from (0, 0) (body_of [" ctx"; "+new"]) ∧
       lines h !! 0%nat = Some (mkLine (Some 0) (Some 0) " ctx").
Proof.
  apply (first_malformed_header_counts_from_zero
           (Str.join_nl ["@@ oops"; " ctx"; "+new"]) [] "@@ oops" " ctx" ["+new"]).
  - vm_compute. reflexivity.
  - constructor.
  - reflexivity.
  - vm_compute. reflexivity.
  - reflexivity.
Defined.

End parser_properties.

(** ** Properties of the rate-limit guard and of the diff endpoint *)

Section endpoints.

Import Upstream.

Implicit Types (api : service) (e : Failure) (owner repository oid : string).

Lemma quota_exhausted_spec e : quota_exhausted e = true ↔ quota_failure e.
Proof.
  unfold quota_exhausted, quota_failure. destruct (response e) as [r|].
  - rewrite andb_true_iff, !bool_decide_eq_true. split.
    + intros [? ?]. by exists r.
    + intros (r' & [= <-] & ? & ?). done.
  - split; [done|]. by intros (r & ? & _).
Qed.

Lemma run_makeGitHubRequest api ep url :
  run api (makeGitHubRequest ep url) = ([(ep, url)], settle (api ep url)).
Proof. reflexivity. Qed.

(** C3: the guard makes the one upstream call.  When the call resolves, the
    guard returns its payload unchanged.  When it rejects with a 403 whose
    remaining-quota header is "0", the guard returns the signal
    {error, retry_after} (retry_after being the reset header) and does not
    throw.  On every other rejection it throws the error object it caught.
    So a signal is returned exactly on a rejection of the former kind. *)
Theorem makeGitHubRequest_guard api ep url :
  (run api (makeGitHubRequest ep url)).1 = [(ep, url)] ∧
  (∀ a, api ep url = Fulfilled a →
     (run api (makeGitHubRequest ep url)).2 = Returned (Answer a)) ∧
  (∀ e, api ep url = Rejected e → quota_failure e →
     (run api (makeGitHubRequest ep url)).2 =
       Returned (Limited (mkSignal "GitHub API rate limit exceeded" (reset_header e)))) ∧
  (∀ e, api ep url = Rejected e → ¬ quota_failure e →
     (run api (makeGitHubRequest ep url)).2 = Thrown e) ∧
  ((∃ s, (run api (makeGitHubRequest ep url)).2 = Returned (Limited s)) ↔
   (∃ e, api ep url = Rejected e ∧ quota_failure e)).
Proof.
  rewrite run_makeGitHubRequest. cbn [fst snd]. split; [done|].
  split; [by intros a ->|].
  split.
  { intros e -> He%quota_exhausted_spec. unfold settle. by rewrite He. }
  split.
  { intros e -> He. unfold settle.
    destruct (quota_exhausted e) eqn:Hq; [|done].
    by apply quota_exhausted_spec in Hq. }
  split.
  - intros [s Hs]. destruct (api ep url) as [a|e]; [done|].
    exists e. split; [done|]. apply quota_exhausted_spec.
    unfold settle in Hs. by destruct (quota_exhausted e).
  - intros (e & -> & He%quota_exhausted_spec).
    unfold settle. rewrite He. eauto.
Qed.

(** The guard on three rejections: an exhausted quota, a 403 with quota
    left, and a 404. *)
Example guard_rate_limited :
  let e := mkFailure
             (Some (mkResponse 403
                      (<["x-ratelimit-remaining" := "0"]>
                         (<["x-ratelimit-reset" := "1700000000"]> ∅))))
             "Request failed with status code 403" in
  @settle CommitData (Rejected e) =
    Returned (Limited (mkSignal "GitHub API rate limit exceeded" (Some "1700000000"))).
Proof. vm_compute. reflexivity. Qed.

Example guard_forbidden_with_quota :
  let e := mkFailure
             (Some (mkResponse 403 (<["x-ratelimit-remaining" := "42"]> ∅)))
             "Request failed with status code 403" in
  @settle CommitData (Rejected e) = Thrown e.
Proof. vm_compute. reflexivity. Qed.

Example guard_not_found :
  let e := mkFailure
             (Some (mkResponse 404 (<["x-ratelimit-remaining" := "0"]> ∅)))
             "Request failed with status code 404" in
  @settle CommitData (Rejected e) = Thrown e.
Proof. vm_compute. reflexivity. Qed.

Lemma run_bind_guard {B} api ep url (f : guarded (payload ep) → prog (outcome B)) :
  run api (bind (makeGitHubRequest ep url) f) =
    match settle (api ep url) with
    | Returned g => ((ep, url) :: (run api (f g)).1, (run api (f g)).2)
    | Thrown e => ([(ep, url)], Thrown e)
    end.
Proof. cbn. by destruct (settle (api ep url)). Qed.

Lemma run_try_catch {A} api (p : prog (outcome A)) handler :
  run api (try_catch p handler) =
    ((run api p).1,
     match (run api p).2 with
     | Returned a => a
     | Thrown e => handler e
     end).
Proof.
  induction p as [[a|e]|ep url k IH]; cbn; [done|done|].
  by rewrite IH.
Qed.

Lemma settle_quota {A} e :
  quota_failure e →
  @settle A (Rejected e) =
    Returned (Limited (mkSignal "GitHub API rate limit exceeded" (reset_header e))).
Proof. intros He%quota_exhausted_spec. unfold settle. by rewrite He. Qed.

Lemma settle_other {A} e : ¬ quota_failure e → @settle A (Rejected e) = Thrown e.
Proof.
  intros He. unfold settle. destruct (quota_exhausted e) eqn:Hq; [|done].
  by apply quota_exhausted_spec in Hq.
Qed.

(** What the diff handler does, by what the two upstream calls settle to. *)
Lemma run_diff_handler rt api owner repository oid :
  run api (diff_handler rt owner repository oid) =
    match settle (api CommitLookup (commit_url owner repository oid)) with
    | Thrown e =>
        ( [ (CommitLookup, commit_url owner repository oid) ],
          Api.mkReply (failure_status e)
            (Api.ErrorBody "Error fetching commit diff" (message e)) )
    | Returned (Limited s) =>
        ( [ (CommitLookup, commit_url owner repository oid) ],
          Api.mkReply 429 (Api.SignalBody s) )
    | Returned (Answer commit) =>
        match parentOid commit with
        | None =>
            ( [ (CommitLookup, commit_url owner repository oid) ],
              Api.mkReply 400 (Api.MessageBody "No parent commit found") )
        | Some parent =>
            ( [ (CommitLookup, commit_url owner repository oid);
                (CompareLookup, compare_url owner repository parent oid) ],
              match settle (api CompareLookup (compare_url owner repository parent oid)) with
              | Thrown e =>
                  Api.mkReply (failure_status e)
                    (Api.ErrorBody "Error fetching commit diff" (message e))
              | Returned (Limited s) => Api.mkReply 429 (Api.SignalBody s)
              | Returned (Answer d) =>
                  match files d with
                  | None =>
                      Api.mkReply 500
                        (Api.ErrorBody "Error fetching commit diff"
                           (type_error_text rt "map"))
                  | Some fs =>
                      match mapM (file_diff rt) fs with
                      | None =>
                          Api.mkReply 500
                            (Api.ErrorBody "Error fetching commit diff"
                               (type_error_text rt "toUpperCase"))
                      | Some out => Api.mkReply 200 (Api.FilesBody out)
                      end
                  end
              end )
        end
    end.
Proof.
  unfold diff_handler, diff_body. rewrite run_try_catch, run_bind_guard.
  destruct (settle (api CommitLookup _)) as [[commit|s]|e]; try reflexivity.
  destruct (parentOid commit) as [parent|]; [|reflexivity].
  rewrite run_bind_guard.
  destruct (settle (api CompareLookup _)) as [[d|s]|e]; try reflexivity.
  destruct (files d) as [fs|]; [|reflexivity].
  by destruct (mapM (file_diff rt) fs).
Qed.

Lemma commit_url_text owner repository oid :
  commit_url owner repository oid =
    "/repos/" +:+ owner +:+ "/" +:+ repository +:+ "/commits/" +:+ oid.
Proof. reflexivity. Qed.

Lemma compare_url_text owner repository parent oid :
  compare_url owner repository parent oid =
    "/repos/" +:+ owner +:+ "/" +:+ repository +:+ "/compare/" +:+ parent +:+ "..." +:+ oid.
Proof. reflexivity. Qed.

(** C8: once the commit lookup "/repos/{owner}/{repository}/commits/{oid}"
    has resolved, the diff endpoint compares against the first entry of the
    commit's parents and no other: with parents [p :: others] ([p] carrying
    a non-empty hash) the second and last upstream call is
    "/repos/{owner}/{repository}/compare/{hash of p}...{oid}", whatever
    [others] is; with no parents list, or an empty one, the endpoint answers
    400 with the message "No parent commit found" and the commit lookup is
    the only upstream call. *)
Theorem diff_uses_first_parent rt api owner repository oid commit :
  api CommitLookup ("/repos/" +:+ owner +:+ "/" +:+ repository +:+ "/commits/" +:+ oid)
    = Fulfilled commit →
  (∀ p others, parents commit = Some (p :: others) → parent_sha p ≠ "" →
     (run api (diff_handler rt owner repository oid)).1 =
       [ (CommitLookup,
          "/repos/" +:+ owner +:+ "/" +:+ repository +:+ "/commits/" +:+ oid);
         (CompareLookup,
          "/repos/" +:+ owner +:+ "/" +:+ repository +:+ "/compare/"
            +:+ parent_sha p +:+ "..." +:+ oid) ]) ∧
  (parents commit = None ∨ parents commit = Some [] →
     run api (diff_handler rt owner repository oid) =
       ( [ (CommitLookup,
            "/repos/" +:+ owner +:+ "/" +:+ repository +:+ "/commits/" +:+ oid) ],
         Api.mkReply 400 (Api.MessageBody "No parent commit found") )).
Proof.
  rewrite <- commit_url_text. intros Hcommit.
  rewrite run_diff_handler, Hcommit. cbn [settle]. split.
  - intros p others Hp Hsha. rewrite <- compare_url_text.
    unfold parentOid. rewrite Hp. by rewrite decide_False.
  - intros Hnone. unfold parentOid. by destruct Hnone as [-> | ->].
Qed.

Lemma diff_uses_first_parent_witness :
  (run sample_api (diff_handler ascii_runtime "o" "r" "c3")).1 =
    [ (CommitLookup, "/repos/o/r/commits/c3");
      (CompareLookup, "/repos/o/r/compare/c1...c3") ] ∧
  run sample_api (diff_handler ascii_runtime "o" "r" "c0") =
    ( [ (CommitLookup, "/repos/o/r/commits/c0") ],
      Api.mkReply 400 (Api.MessageBody "No parent commit found") ).
Proof.
  split.
  - apply (proj1 (diff_uses_first_parent ascii_runtime sample_api "o" "r" "c3"
                    (mkCommit "c3" (Some [mkParent "c1"; mkParent "c2"])) eq_refl)
             (mkParent "c1") [mkParent "c2"]).
    + reflexivity.
    + discriminate.
  - apply (proj2 (diff_uses_first_parent ascii_runtime sample_api "o" "r" "c0"
                    (mkCommit "c0" (Some [])) eq_refl)).
    right. reflexivity.
Defined.

(** C9: when both upstream calls resolve and the compare result lists its
    files, each with a status, the endpoint answers 200 with one FileDiff
    per changed file, in order; the FileDiff of a file without patch text
    has no hunks, the file's status put through [toUpperCase] as
    changeKind, and the file's one filename as both head path and base
    path. *)
Theorem diff_file_without_patch rt api owner repository oid commit parent d fs :
  api CommitLookup (commit_url owner repository oid) = Fulfilled commit →
  parentOid commit = Some parent →
  api CompareLookup (compare_url owner repository parent oid) = Fulfilled d →
  files d = Some fs →
  Forall (λ f, is_Some (file_status f)) fs →
  ∃ out,
    (run api (diff_handler rt owner repository oid)).2 = Api.mkReply 200 (Api.FilesBody out) ∧
    length out = length fs ∧
    ∀ k f, fs !! k = Some f → patch f = None →
      ∃ status, file_status f = Some status ∧
        out !! k = Some (Api.mkFileDiff (toUpperCase rt status)
                           (Api.mkPath (filename f)) (Api.mkPath (filename f)) []).
Proof.
  intros Hcommit Hparent Hd Hfs Hall.
  rewrite run_diff_handler, Hcommit. cbn [settle].
  rewrite Hparent, Hd. cbn [settle snd]. rewrite Hfs.
  destruct (mapM (file_diff rt) fs) as [out|] eqn:Hout.
  - exists out. split; [done|].
    pose proof (mapM_Some_1 _ _ _ Hout) as Hf2.
    split; [symmetry; by eapply Forall2_length|].
    intros k f Hf Hpatch.
    destruct (Forall2_lookup_l _ _ _ _ _ Hf2 Hf) as (o & Ho & Hfo).
    unfold file_diff, file_hunks in Hfo. rewrite Hpatch in Hfo.
    destruct (file_status f) as [status|]; [|done].
    exists status. split; [done|]. by injection Hfo as <-.
  - apply mapM_None_1, Exists_exists in Hout as (f & Hin & Hnone).
    rewrite Forall_forall in Hall. destruct (Hall f Hin) as [status Hs].
    unfold file_diff in Hnone. by rewrite Hs in Hnone.
Qed.

Lemma diff_file_without_patch_witness :
  ∃ out,
    (run sample_api (diff_handler ascii_runtime "o" "r" "c3")).2 =
      Api.mkReply 200 (Api.FilesBody out) ∧
    length out = 2%nat ∧
    out !! 1%nat =
      Some (Api.mkFileDiff "ADDED" (Api.mkPath "logo.png") (Api.mkPath "logo.png") []).
Proof.
  destruct (diff_file_without_patch ascii_runtime sample_api "o" "r" "c3"
              (mkCommit "c3" (Some [mkParent "c1"; mkParent "c2"])) "c1"
              (mkCompare (Some sample_files)) sample_files
              eq_refl eq_refl eq_refl eq_refl)
    as (out & Hreply & Hlen & Hout).
  - repeat constructor; eexists; reflexivity.
  - exists out. split; [exact Hreply|]. split; [exact Hlen|].
    destruct (Hout 1%nat (mkFile (Some "added") "logo.png" None) eq_refl eq_refl)
      as (status & Hs & Hk).
    injection Hs as <-. exact Hk.
Defined.

(** The runs of the sample service, evaluated. *)
Example diff_merge_commit :
  run sample_api (diff_handler ascii_runtime "o" "r" "c3") =
    ( [ (CommitLookup, "/repos/o/r/commits/c3");
        (CompareLookup, "/repos/o/r/compare/c1...c3") ],
      Api.mkReply 200
        (Api.FilesBody
           [ Api.mkFileDiff "MODIFIED" (Api.mkPath "a.txt") (Api.mkPath "a.txt")
               [scenario_hunk];
             Api.mkFileDiff "ADDED" (Api.mkPath "logo.png") (Api.mkPath "logo.png") [] ]) ).
Proof. vm_compute. reflexivity. Qed.

Example diff_root_commit :
  run sample_api (diff_handler ascii_runtime "o" "r" "c0") =
    ( [ (CommitLookup, "/repos/o/r/commits/c0") ],
      Api.mkReply 400 (Api.MessageBody "No parent commit found") ).
Proof. vm_compute. reflexivity. Qed.

End endpoints.

(** ** More on strings and on the header pattern *)

Section header_pattern.

Lemma append_assoc (a b c : string) : (a +:+ b) +:+ c = a +:+ b +:+ c.
Proof.
  induction a as [|x a IH]; [done|].
  change (String x ((a +:+ b) +:+ c) = String x (a +:+ b +:+ c)). by rewrite IH.
Qed.

(** Splitting and joining again gives the text back. *)
Lemma join_split s : Str.join_nl (Str.split_nl s) = s.
Proof.
  induction s as [|c s IH]; [done|]. simpl.
  pose proof (split_nl_nonempty s) as Hne.
  destruct (Str.split_nl s) as [|l ls]; [done|].
  case_decide as Hc.
  - subst c. change (Str.join_nl ("" :: l :: ls)) with (Str.nl +:+ Str.join_nl (l :: ls)).
    by rewrite IH.
  - destruct ls as [|l' ls].
    + simpl in *. by rewrite IH.
    + change (Str.join_nl (String c l :: l' :: ls))
        with (String c (l +:+ Str.nl +:+ Str.join_nl (l' :: ls))).
      by rewrite <- IH.
Qed.

(** The lines of two texts put one after the other. *)
Lemma split_nl_append a b :
  Str.split_nl (a +:+ Str.nl +:+ b) = Str.split_nl a ++ Str.split_nl b.
Proof.
  induction a as [|c a IH]; [done|]. simpl. case_decide.
  - by rewrite IH.
  - rewrite IH. pose proof (split_nl_nonempty a).
    by destruct (Str.split_nl a).
Qed.

Lemma lit_app p r : Re.lit p (p +:+ r) = [r].
Proof. induction p as [|c p IH]; simpl; [done|]. by rewrite decide_True. Qed.

Lemma lit_elem p : ∀ s r, r ∈ Re.lit p s → s = p +:+ r.
Proof.
  induction p as [|c p IH]; intros s r; simpl.
  - rewrite list_elem_of_singleton. by intros ->.
  - destruct s as [|c' s]; [by rewrite elem_of_nil|].
    case_decide; [|by rewrite elem_of_nil].
    intros Hr. subst c'. apply IH in Hr as ->. reflexivity.
Qed.

Lemma digits_star_elem s : ∀ d r,
  (d, r) ∈ Re.digits_star s → s = d +:+ r ∧ all_digits d = true.
Proof.
  induction s as [|c s IH]; intros d r; simpl.
  - rewrite list_elem_of_singleton. by intros [= -> ->].
  - destruct (Str.is_digit c) eqn:Hc.
    + rewrite elem_of_app, list_elem_of_singleton.
      intros [Hin | [= -> ->]]; [|done].
      change (map ?f ?l) with (f <$> l) in Hin.
      apply list_elem_of_fmap in Hin as ([d' r'] & [= -> ->] & Hin).
      destruct (IH _ _ Hin) as [-> Hd]. simpl. by rewrite Hc, Hd.
    + rewrite list_elem_of_singleton. by intros [= -> ->].
Qed.

(** The first way [\d*] matches is the whole run of digits. *)
Lemma digits_star_head d r :
  all_digits d = true → no_digit_start r →
  head (Re.digits_star (d +:+ r)) = Some (d, r).
Proof.
  induction d as [|c d IH]; simpl.
  - intros _ Hr. destruct r as [|c r]; [done|]. simpl in *. by rewrite Hr.
  - intros [Hc Hd]%andb_true_iff Hr. rewrite Hc.
    specialize (IH Hd Hr).
    by destruct (Re.digits_star (d +:+ r)) as [|[d' r'] tl]; simplify_eq/=.
Qed.

Lemma digits_plus_head d r :
  all_digits d = true → d ≠ "" → no_digit_start r →
  head (Re.digits_plus (d +:+ r)) = Some (d, r).
Proof.
  intros Hd Hne Hr. unfold Re.digits_plus.
  pose proof (digits_star_head d r Hd Hr) as Hhead.
  destruct (Re.digits_star (d +:+ r)) as [|x tl]; simplify_eq/=.
  by rewrite filter_cons_True.
Qed.

Lemma head_bind {A B} (l : list A) (f : A → list B) x y :
  head l = Some x → head (f x) = Some y → head (l ≫= f) = Some y.
Proof.
  destruct l as [|x' l]; [done|]. intros [= ->]. rewrite bind_cons.
  by destruct (f x).
Qed.

Lemma count_part_no_digit m r : count_part m → no_digit_start (m +:+ String " " r).
Proof. by intros [-> | (c & -> & _)]. Qed.

(** The first way [,?\d*] matches an optional count. *)
Lemma count_part_head {B} m r (k : string → list B) y :
  count_part m →
  head (k (String " " r)) = Some y →
  head (r2 ← Re.opt "," (m +:+ String " " r); '(_, r3) ← Re.digits_star r2; k r3) = Some y.
Proof.
  intros [-> | (c & -> & Hc)] Hk.
  - eapply (head_bind _ _ (String " " r)); [reflexivity|].
    eapply (head_bind _ _ ("", String " " r)); [reflexivity|done].
  - eapply (head_bind _ _ (c +:+ String " " r)); [reflexivity|].
    eapply head_bind; [by apply digits_star_head|done].
Qed.

Lemma all_digits_app a b :
  all_digits a = true → all_digits b = true → all_digits (a +:+ b) = true.
Proof.
  induction a as [|c a IH]; [done|]. intros [Hc Ha]%andb_true_iff Hb.
  change (Str.is_digit c && all_digits (a +:+ b) = true).
  by rewrite Hc, IH.
Qed.

(** A line of the documented form matches, and the first match captures the
    two start numbers in full. *)
Lemma header_paths_head d1 m1 d2 m2 rest :
  all_digits d1 = true → d1 ≠ "" → count_part m1 →
  all_digits d2 = true → d2 ≠ "" → count_part m2 →
  head (Re.header_paths (header_text d1 m1 d2 m2 rest)) = Some (d1, d2).
Proof.
  intros Hd1 Hn1 Hm1 Hd2 Hn2 Hm2. unfold Re.header_paths, header_text.
  eapply head_bind; [by rewrite lit_app|].
  change (" +" +:+ ?x) with (String " " ("+" +:+ x)).
  change (" @@" +:+ ?x) with (String " " ("@@" +:+ x)).
  eapply head_bind.
  { apply digits_plus_head; [done..|]. by apply count_part_no_digit. }
  cbn beta iota. apply count_part_head; [done|].
  eapply head_bind; [reflexivity|].
  eapply head_bind.
  { apply digits_plus_head; [done..|]. by apply count_part_no_digit. }
  cbn beta iota. apply count_part_head; [done|].
  eapply head_bind; [reflexivity|]. reflexivity.
Qed.

(** However [(\d+),?\d*] matched, the text it consumed is a number followed
    by an optional count. *)
Lemma number_part r0 g r1 r2 c r3 :
  (g, r1) ∈ Re.digits_plus r0 → r2 ∈ Re.opt "," r1 → (c, r3) ∈ Re.digits_star r2 →
  ∃ d m, r0 = d +:+ m +:+ r3 ∧ all_digits d = true ∧ d ≠ "" ∧ count_part m.
Proof.
  unfold Re.digits_plus, Re.opt.
  intros [Hg Hin]%list_elem_of_filter Hopt Hc. simpl in Hg.
  apply digits_star_elem in Hin as [Hr0 Hdg].
  apply digits_star_elem in Hc as [Hr2 Hdc].
  apply elem_of_app in Hopt as [Hcomma | Hsame%list_elem_of_singleton].
  - apply lit_elem in Hcomma. subst r0 r1 r2.
    exists g, ("," +:+ c). split; [by rewrite append_assoc|].
    split; [done|]. split; [done|]. right. eauto.
  - subst r0 r1 r2.
    exists (g +:+ c), "". split; [by rewrite append_assoc|].
    split; [by apply all_digits_app|]. split; [|by left].
    destruct g; [done|]. discriminate.
Qed.

Lemma header_paths_elem l g1 g2 :
  (g1, g2) ∈ Re.header_paths l →
  ∃ d1 m1 d2 m2 rest,
    l = header_text d1 m1 d2 m2 rest ∧
    all_digits d1 = true ∧ d1 ≠ "" ∧ count_part m1 ∧
    all_digits d2 = true ∧ d2 ≠ "" ∧ count_part m2.
Proof.
  unfold Re.header_paths.
  intros (r0 & Hin & H0)%list_elem_of_bind.
  apply list_elem_of_bind in Hin as ([ga r1] & Hin & H1).
  apply list_elem_of_bind in Hin as (r2 & Hin & H2).
  apply list_elem_of_bind in Hin as ([ca r3] & Hin & H3).
  apply list_elem_of_bind in Hin as (r4 & Hin & H4).
  apply list_elem_of_bind in Hin as ([gb r5] & Hin & H5).
  apply list_elem_of_bind in Hin as (r6 & Hin & H6).
  apply list_elem_of_bind in Hin as ([cb r7] & Hin & H7).
  apply list_elem_of_bind in Hin as (r8 & _ & H8).
  destruct (number_part _ _ _ _ _ _ H1 H2 H3) as (d1 & m1 & -> & ? & ? & ?).
  destruct (number_part _ _ _ _ _ _ H5 H6 H7) as (d2 & m2 & -> & ? & ? & ?).
  apply lit_elem in H0 as ->. apply lit_elem in H4 as ->. apply lit_elem in H8 as ->.
  by exists d1, m1, d2, m2, r8.
Qed.

Lemma digit_value_nonneg c : Str.is_digit c = true → 0 ≤ Str.digit_value c.
Proof.
  unfold Str.is_digit, Str.digit_value.
  intros [H1 _]%andb_true_iff. apply N.leb_le in H1. lia.
Qed.

Lemma fold_digits_nonneg d : ∀ acc,
  0 ≤ acc → all_digits d = true →
  0 ≤ fold_left (λ acc c, 10 * acc + Str.digit_value c) (list_ascii_of_string d) acc.
Proof.
  induction d as [|c d IH]; intros acc Hacc Hd; [done|].
  apply andb_true_iff in Hd as [Hc Hd]. simpl. apply IH; [|done].
  pose proof (digit_value_nonneg c Hc). lia.
Qed.

Lemma parseInt_nonneg d : all_digits d = true → 0 ≤ Str.parseInt d.
Proof. intros Hd. apply round_nonneg. by apply fold_digits_nonneg. Qed.

Lemma decimal_acc d : ∀ acc : positive,
  fold_left (λ acc c, 10 * acc + Str.digit_value c)
    (list_ascii_of_string (NilEmpty.string_of_uint d)) (Z.pos acc) =
  Z.pos (Pos.of_uint_acc d acc).
Proof.
  induction d as [|d IH|d IH|d IH|d IH|d IH|d IH|d IH|d IH|d IH|d IH];
    intros acc; [done|..];
    cbn [NilEmpty.string_of_uint list_ascii_of_string fold_left Pos.of_uint_acc];
    rewrite <- IH; f_equal; unfold Str.digit_value; simpl; lia.
Qed.

Lemma decimal_of_uint d :
  Str.decimal (NilEmpty.string_of_uint d) = Z.of_N (Pos.of_uint d).
Proof.
  unfold Str.decimal.
  induction d as [|d IH|d IH|d IH|d IH|d IH|d IH|d IH|d IH|d IH|d IH];
    [done|exact IH|..];
    cbn [NilEmpty.string_of_uint list_ascii_of_string fold_left Pos.of_uint];
    exact (decimal_acc d _).
Qed.

(** Reading the numeral of [n] gives [n]. *)
Lemma decimal_numeral n : Str.decimal (numeral n) = Z.of_N n.
Proof.
  unfold numeral. rewrite decimal_of_uint.
  change (Pos.of_uint (N.to_uint n)) with (N.of_uint (N.to_uint n)).
  by rewrite DecimalN.Unsigned.of_to.
Qed.

Lemma all_digits_uint d : all_digits (NilEmpty.string_of_uint d) = true.
Proof. induction d; simpl; done. Qed.

Lemma numeral_nonempty n : numeral n ≠ "".
Proof.
  unfold numeral. destruct n as [|p]; [done|]. simpl.
  pose proof (DecimalPos.Unsigned.to_uint_nonnil p) as Hp.
  by destruct (Pos.to_uint p).
Qed.

(** What a successful match says about the line. *)
Lemma header_starts_form l b h :
  header_starts l = Some (b, h) →
  ∃ d1 m1 d2 m2 rest,
    l = header_text d1 m1 d2 m2 rest ∧
    all_digits d1 = true ∧ d1 ≠ "" ∧ count_part m1 ∧
    all_digits d2 = true ∧ d2 ≠ "" ∧ count_part m2 ∧
    b = Str.parseInt d1 ∧ h = Str.parseInt d2.
Proof.
  unfold header_starts, Re.header_match.
  destruct (head (Re.header_paths l)) as [[g1 g2]|] eqn:Hhead; [|done].
  intros [= <- <-].
  pose proof (head_Some_elem_of _ _ Hhead) as Hin.
  apply header_paths_elem in Hin
    as (d1 & m1 & d2 & m2 & rest & -> & Hd1 & Hn1 & Hm1 & Hd2 & Hn2 & Hm2).
  rewrite header_paths_head in Hhead by done. injection Hhead as <- <-.
  by exists d1, m1, d2, m2, rest.
Qed.

Lemma header_starts_nonneg l b h :
  header_starts l = Some (b, h) → 0 ≤ b ∧ 0 ≤ h ∧ is_header l = true.
Proof.
  intros (d1 & m1 & d2 & m2 & rest & -> & Hd1 & _ & _ & Hd2 & _ & _ & -> & ->)%header_starts_form.
  split; [by apply parseInt_nonneg|]. split; [by apply parseInt_nonneg|]. done.
Qed.

(** X1: a line matches the header pattern, with start numbers [b] and [h],
    exactly when it reads "@@ -d1[,c1] +d2[,c2] @@" followed by any text,
    [d1] and [d2] being non-empty runs of digits and each count either
    missing or a comma and digits; [b] and [h] are then what [parseInt]
    makes of [d1] and [d2], the doubles nearest to the integers they denote.
    In particular a header written with the decimal numerals of [n1] and
    [n2], both at most 2^53, has exactly the start numbers [n1] and [n2],
    while 2^53 + 1 and 2^53 + 3 are read as 2^53 and 2^53 + 4. *)
Theorem header_starts_iff l b h :
  (header_starts l = Some (b, h) ↔
   ∃ d1 m1 d2 m2 rest,
     l = header_text d1 m1 d2 m2 rest ∧
     all_digits d1 = true ∧ d1 ≠ "" ∧ count_part m1 ∧
     all_digits d2 = true ∧ d2 ≠ "" ∧ count_part m2 ∧
     b = Js.round (Str.decimal d1) ∧ h = Js.round (Str.decimal d2)) ∧
  (∀ (n1 n2 : N) m1 m2 rest,
     count_part m1 → count_part m2 →
     Z.of_N n1 ≤ 9007199254740992 → Z.of_N n2 ≤ 9007199254740992 →
     header_starts (header_text (numeral n1) m1 (numeral n2) m2 rest) =
       Some (Z.of_N n1, Z.of_N n2)) ∧
  header_starts "@@ -9007199254740993 +9007199254740995 @@" =
    Some (9007199254740992, 9007199254740996).
Proof.
  split; [|split; [|vm_compute; reflexivity]].
  - split; [apply header_starts_form|].
    intros (d1 & m1 & d2 & m2 & rest & -> & Hd1 & Hn1 & Hm1 & Hd2 & Hn2 & Hm2 & -> & ->).
    unfold header_starts, Re.header_match. by rewrite header_paths_head.
  - intros n1 n2 m1 m2 rest Hm1 Hm2 H1 H2.
    unfold header_starts, Re.header_match.
    rewrite header_paths_head
      by (first [done | apply all_digits_uint | apply numeral_nonempty]).
    unfold Str.parseInt. rewrite !decimal_numeral.
    by rewrite !round_exact.
Qed.

(** The pattern on a header with counts and trailing text. *)
Example header_with_counts :
  header_starts "@@ -12,7 +340,19 @@ function parsePatch(patch) {" = Some (12, 340) ∧
  header_starts "@@ -0,0 +1 @@" = Some (0, 1) ∧
  header_starts "@@ -9007199254740993 +1 @@" = Some (9007199254740992, 1) ∧
  header_starts "@@ -12,7 +340,19@@" = None ∧
  header_starts "@@ -a +1 @@" = None.
Proof. vm_compute. done. Qed.

End header_pattern.

(** ** More properties of the patch parser *)

Section parser_more.

Implicit Types (patch : string) (h : Hunk) (r : LineRecord).

Lemma segments_nil_iff ls : segments ls = [] ↔ Forall (λ l, is_header l = false) ls.
Proof.
  induction ls as [|l ls IH]; simpl.
  - split; [constructor|done].
  - destruct (is_header l) eqn:Hl.
    + split; [done|]. intros Hall. inversion Hall; congruence.
    + rewrite IH. split; [by constructor|]. by inversion 1.
Qed.

Lemma number_segments_nil_iff segs bh : number_segments bh segs = [] ↔ segs = [].
Proof. by destruct segs as [|[hdr body] segs]. Qed.

(** X2: the parser returns no hunk exactly when no line of the text starts
    with "@@"; the empty text is one such case. *)
Theorem parsePatch_nil_iff patch :
  parsePatch patch = [] ↔ Forall (λ l, is_header l = false) (Str.split_nl patch).
Proof.
  unfold parsePatch. by rewrite parseLines_spec, number_segments_nil_iff, segments_nil_iff.
Qed.

Lemma hunk_source_number_segments segs bh :
  map hunk_source (number_segments bh segs) = map seg_lines segs.
Proof.
  rewrite <- (hunk_text_number_segments segs bh) at 2. by rewrite map_map.
Qed.

Lemma is_header_first_line patch :
  is_header patch = true →
  ∃ hdr rest, Str.split_nl patch = hdr :: rest ∧ is_header hdr = true.
Proof.
  intros H. unfold is_header in H.
  destruct patch as [|c1 p]; [done|]. cbn [Str.startsWith] in H.
  case_decide as H1; [|done]. destruct p as [|c2 p]; [done|].
  cbn [Str.startsWith] in H. case_decide as H2; [|done]. subst c1 c2.
  pose proof (split_nl_nonempty p) as Hne.
  cbn [Str.split_nl]. rewrite !decide_False by done.
  destruct (Str.split_nl p) as [|l ls]; [done|].
  exists (String "@" (String "@" l)), ls. split; [done|]. reflexivity.
Qed.

(** X3: for a text that starts with "@@", writing out the hunks of the
    result (each header, then the content of its records, joined by
    newlines) gives the text back: the parser drops no line and no
    character of it. *)
Theorem unparse_parsePatch patch :
  is_header patch = true → unparse (parsePatch patch) = patch.
Proof.
  intros (hdr & rest & Hsplit & Hhdr)%is_header_first_line.
  unfold unparse, parsePatch.
  rewrite parseLines_spec, hunk_source_number_segments.
  destruct (lines_decomposition (Str.split_nl patch)) as [Hdec _].
  rewrite Hsplit in Hdec at 2. cbn [body_of] in Hdec. rewrite Hhdr in Hdec.
  cbn [app] in Hdec. rewrite <- Hdec. apply join_split.
Qed.

Lemma unparse_parsePatch_witness : unparse (parsePatch scenario_patch) = scenario_patch.
Proof. apply (unparse_parsePatch scenario_patch). reflexivity. Defined.

(** X4: parsing what [unparse] writes for the hunks of any text gives the
    same hunks again, whether or not the headers have the documented form. *)
Theorem reparse_unparse patch :
  parsePatch (unparse (parsePatch patch)) = parsePatch patch.
Proof.
  unfold unparse, parsePatch at 2 3.
  rewrite parseLines_spec, hunk_source_number_segments.
  destruct (lines_decomposition (Str.split_nl patch)) as [Hdec Hok].
  destruct (segments (Str.split_nl patch)) as [|seg segs] eqn:Hsegs; [done|].
  unfold parsePatch. rewrite split_join.
  - by rewrite parseLines_spec, segments_flatten.
  - by destruct seg.
  - pose proof (split_nl_one_line patch) as Hone. rewrite Hdec in Hone.
    by apply Forall_app in Hone as [_ ?].
Qed.

(** X5: every hunk of the result has a header that starts with "@@", and
    records whose content does not; neither holds a newline. *)
Theorem hunk_shape patch i h :
  parsePatch patch !! i = Some h →
  is_header (header h) = true ∧ Str.one_line (header h) ∧
  Forall (λ r, is_header (content r) = false ∧ Str.one_line (content r)) (lines h).
Proof.
  intros Hi. apply list_elem_of_lookup_2, parsePatch_hunk in Hi.
  destruct Hi as (bh0 & body & Hseg & Hlines).
  apply segments_elem in Hseg as (Hhdr & His & Hbody & Hsub).
  pose proof (split_nl_one_line patch) as Hone. rewrite Forall_forall in Hone.
  split; [done|]. split; [by apply Hone|].
  apply Forall_forall. intros r Hr.
  assert (content r ∈ body) as Hc.
  { rewrite <- (content_number_from body (starts_or (header h) bh0)), <- Hlines.
    change (map content (lines h)) with (content <$> lines h).
    by apply list_elem_of_fmap_2. }
  split; [|by apply Hone, Hsub].
  rewrite Forall_forall in Hbody. by apply Hbody.
Qed.

Lemma hunk_shape_witness :
  is_header (header scenario_hunk) = true ∧ Str.one_line (header scenario_hunk) ∧
  Forall (λ r, is_header (content r) = false ∧ Str.one_line (content r))
    (lines scenario_hunk).
Proof. apply (hunk_shape scenario_patch 0%nat). vm_compute. reflexivity. Defined.

Lemma omap_base_number_from ls : ∀ bh,
  omap baseLineNumber (number_from bh ls) = Js.run bh.1 (base_count ls).
Proof.
  induction ls as [|l ls IH]; intros bh; [done|].
  cbn [number_from]. rewrite base_count_cons.
  unfold numbered, bump, uses_base.
  by destruct (marker_of l); cbn [omap list_omap baseLineNumber]; rewrite IH.
Qed.

Lemma omap_head_number_from ls : ∀ bh,
  omap headLineNumber (number_from bh ls) = Js.run bh.2 (head_count ls).
Proof.
  induction ls as [|l ls IH]; intros bh; [done|].
  cbn [number_from]. rewrite head_count_cons.
  unfold numbered, bump, uses_head.
  by destruct (marker_of l); cbn [omap list_omap headLineNumber]; rewrite IH.
Qed.

(** X6: within a hunk the base line numbers that are present are the
    values of one counter, each one increment [++] after the one before,
    and so are the head line numbers; when the header has the documented
    form the counters start at the header's two start numbers.  As long as
    a counter does not pass 2^53 its values are consecutive integers. *)
Theorem line_numbers_consecutive patch i h :
  parsePatch patch !! i = Some h →
  ∃ bstart hstart : Z,
    (∀ bs hs, header_starts (header h) = Some (bs, hs) → bstart = bs ∧ hstart = hs) ∧
    omap baseLineNumber (lines h) = Js.run bstart (base_count (map content (lines h))) ∧
    omap headLineNumber (lines h) = Js.run hstart (head_count (map content (lines h))) ∧
    (bstart + base_used (map content (lines h)) ≤ Js.exact_limit →
       omap baseLineNumber (lines h) =
         seqZ bstart (base_used (map content (lines h)))) ∧
    (hstart + head_used (map content (lines h)) ≤ Js.exact_limit →
       omap headLineNumber (lines h) =
         seqZ hstart (head_used (map content (lines h)))).
Proof.
  intros Hi. destruct (hunk_lines _ _ _ Hi) as [bh0 Hlines].
  exists (starts_or (header h) bh0).1, (starts_or (header h) bh0).2.
  assert (omap baseLineNumber (lines h) =
            Js.run (starts_or (header h) bh0).1 (base_count (map content (lines h))))
    as Hb by (rewrite Hlines at 1; apply omap_base_number_from).
  assert (omap headLineNumber (lines h) =
            Js.run (starts_or (header h) bh0).2 (head_count (map content (lines h))))
    as Hh by (rewrite Hlines at 1; apply omap_head_number_from).
  split_and!; try done.
  - intros bs hs Hs. unfold starts_or. by rewrite Hs.
  - intros Hlim. rewrite Hb. by apply run_exact.
  - intros Hlim. rewrite Hh. by apply run_exact.
Qed.

Lemma line_numbers_consecutive_witness :
  ∃ bstart hstart : Z,
    (∀ bs hs, header_starts (header scenario_hunk) = Some (bs, hs) →
       bstart = bs ∧ hstart = hs) ∧
    omap baseLineNumber (lines scenario_hunk) =
      Js.run bstart (base_count (map content (lines scenario_hunk))) ∧
    omap headLineNumber (lines scenario_hunk) =
      Js.run hstart (head_count (map content (lines scenario_hunk))) ∧
    (bstart + base_used (map content (lines scenario_hunk)) ≤ Js.exact_limit →
       omap baseLineNumber (lines scenario_hunk) =
         seqZ bstart (base_used (map content (lines scenario_hunk)))) ∧
    (hstart + head_used (map content (lines scenario_hunk)) ≤ Js.exact_limit →
       omap headLineNumber (lines scenario_hunk) =
         seqZ hstart (head_used (map content (lines scenario_hunk)))).
Proof.
  apply (line_numbers_consecutive scenario_patch 0%nat). vm_compute. reflexivity.
Defined.

Lemma bump_nonneg body : ∀ bh,
  0 ≤ bh.1 → 0 ≤ bh.2 →
  0 ≤ (fold_left bump body bh).1 ∧ 0 ≤ (fold_left bump body bh).2.
Proof.
  induction body as [|l body IH]; intros bh H1 H2; [done|].
  simpl. apply IH; unfold bump; destruct (marker_of l); simpl;
    try done; by apply succ_nonneg.
Qed.

Lemma starts_or_nonneg hdr bh :
  0 ≤ bh.1 → 0 ≤ bh.2 → 0 ≤ (starts_or hdr bh).1 ∧ 0 ≤ (starts_or hdr bh).2.
Proof.
  intros H1 H2. unfold starts_or.
  destruct (header_starts hdr) as [[b h]|] eqn:Hs; [|done].
  apply header_starts_nonneg in Hs as (? & ? & _). done.
Qed.

Lemma number_segments_nonneg segs : ∀ bh h,
  0 ≤ bh.1 → 0 ≤ bh.2 →
  h ∈ number_segments bh segs →
  ∃ bh0 body, 0 ≤ bh0.1 ∧ 0 ≤ bh0.2 ∧ lines h = number_from bh0 body.
Proof.
  induction segs as [|[hdr body] segs IH]; intros bh h H1 H2; simpl.
  - by rewrite elem_of_nil.
  - destruct (starts_or_nonneg hdr bh H1 H2) as [Hs1 Hs2].
    rewrite elem_of_cons. intros [->|Hin].
    + by exists (starts_or hdr bh), body.
    + destruct (bump_nonneg body _ Hs1 Hs2) as [Hb1 Hb2]. by eapply IH.
Qed.

(** X7: no line number in the result is negative. *)
Theorem line_numbers_nonneg patch i h j r :
  parsePatch patch !! i = Some h →
  lines h !! j = Some r →
  (∀ b, baseLineNumber r = Some b → 0 ≤ b) ∧
  (∀ hd, headLineNumber r = Some hd → 0 ≤ hd).
Proof.
  intros Hi Hr. apply list_elem_of_lookup_2 in Hi.
  unfold parsePatch in Hi. rewrite parseLines_spec in Hi.
  apply number_segments_nonneg in Hi as (bh0 & body & H1 & H2 & Hlines); [|done..].
  rewrite Hlines in Hr. apply lookup_number_from in Hr as (l & _ & ->).
  unfold numbered.
  destruct (marker_of l); cbn [baseLineNumber headLineNumber];
    split; intros n [= <-]; by apply advance_nonneg.
Qed.

Lemma line_numbers_nonneg_witness :
  (∀ b, baseLineNumber (mkLine (Some 2) None "-old") = Some b → 0 ≤ b) ∧
  (∀ hd, headLineNumber (mkLine (Some 2) None "-old") = Some hd → 0 ≤ hd).
Proof.
  apply (line_numbers_nonneg scenario_patch 0%nat scenario_hunk 1%nat);
    vm_compute; reflexivity.
Defined.

Lemma body_of_app_header ls hdr rest :
  is_header hdr = true → body_of (ls ++ hdr :: rest) = body_of ls.
Proof.
  intros Hh. induction ls as [|l ls IH]; simpl; [by rewrite Hh|].
  destruct (is_header l); [done|]. by rewrite IH.
Qed.

Lemma segments_app_header ls hdr rest :
  is_header hdr = true →
  segments (ls ++ hdr :: rest) = segments ls ++ segments (hdr :: rest).
Proof.
  intros Hh. induction ls as [|l ls IH]; [done|].
  cbn [app segments]. destruct (is_header l).
  - by rewrite body_of_app_header, IH.
  - done.
Qed.

Lemma number_segments_app s1 s2 : ∀ bh,
  ∃ bh', number_segments bh (s1 ++ s2) = number_segments bh s1 ++ number_segments bh' s2.
Proof.
  induction s1 as [|[hdr body] s1 IH]; intros bh.
  - by exists bh.
  - destruct (IH (fold_left bump body (starts_or hdr bh))) as [bh' Hbh'].
    exists bh'. simpl. by rewrite Hbh'.
Qed.

(** X8: hunks are parsed independently once a header has the documented
    form: if the first line of [p2] is such a header, parsing [p1], a
    newline and [p2] gives the hunks of [p1] followed by the hunks of [p2]. *)
Theorem parsePatch_append p1 p2 hdr rest :
  Str.split_nl p2 = hdr :: rest →
  is_Some (header_starts hdr) →
  parsePatch (p1 +:+ Str.nl +:+ p2) = parsePatch p1 ++ parsePatch p2.
Proof.
  intros Hsplit [[bs hs] Hs].
  pose proof (header_starts_nonneg _ _ _ Hs) as (_ & _ & Hh).
  unfold parsePatch. rewrite split_nl_append, Hsplit, !parseLines_spec.
  rewrite (segments_app_header _ _ _ Hh).
  destruct (number_segments_app (segments (Str.split_nl p1)) (segments (hdr :: rest)) (0, 0))
    as [bh' ->].
  f_equal. cbn [segments]. rewrite Hh. cbn [number_segments].
  unfold starts_or. by rewrite Hs.
Qed.

Lemma parsePatch_append_witness :
  parsePatch (two_hunk_patch +:+ Str.nl +:+ scenario_patch) =
    parsePatch two_hunk_patch ++ parsePatch scenario_patch.
Proof.
  apply (parsePatch_append two_hunk_patch scenario_patch
           "@@ -1,2 +1,3 @@" [" context"; "-old"; "+new1"; "+new2"]).
  - vm_compute. reflexivity.
  - vm_compute. eauto.
Defined.

(** After a header that does not have the documented form the hunks of the
    second text are numbered from the counters the first text left. *)
Example parsePatch_append_malformed :
  let p1 := Str.join_nl ["@@ -4 +4 @@"; " a"] in
  let p2 := Str.join_nl ["@@ oops"; " b"] in
  parsePatch (p1 +:+ Str.nl +:+ p2) ≠ parsePatch p1 ++ parsePatch p2.
Proof. vm_compute. discriminate. Qed.

End parser_more.

(** ** More properties of the diff endpoint *)

Section endpoints_more.

Import Upstream.

Implicit Types (rt : runtime) (api : service) (e : Failure).
Implicit Types (owner repository oid : string).

(** X9: whatever the upstream service does, the diff endpoint first calls
    "/repos/{owner}/{repository}/commits/{oid}" and then at most one more
    URL; it makes the second call only after the first has resolved with a
    first parent of non-empty hash, and the second call is then
    "/repos/{owner}/{repository}/compare/{hash of that parent}...{oid}". *)
Theorem diff_call_discipline rt api owner repository oid :
  (run api (diff_handler rt owner repository oid)).1 =
    [ (CommitLookup,
       "/repos/" +:+ owner +:+ "/" +:+ repository +:+ "/commits/" +:+ oid) ] ∨
  ∃ commit p others,
    api CommitLookup ("/repos/" +:+ owner +:+ "/" +:+ repository +:+ "/commits/" +:+ oid)
      = Fulfilled commit ∧
    parents commit = Some (p :: others) ∧ parent_sha p ≠ "" ∧
    (run api (diff_handler rt owner repository oid)).1 =
      [ (CommitLookup,
         "/repos/" +:+ owner +:+ "/" +:+ repository +:+ "/commits/" +:+ oid);
        (CompareLookup,
         "/repos/" +:+ owner +:+ "/" +:+ repository +:+ "/compare/"
           +:+ parent_sha p +:+ "..." +:+ oid) ].
Proof.
  rewrite run_diff_handler, <- commit_url_text.
  destruct (api CommitLookup (commit_url owner repository oid)) as [commit|e] eqn:Hc.
  - cbn [settle]. unfold parentOid.
    destruct (parents commit) as [[|p others]|] eqn:Hp; [by left| |by left].
    case_decide as Hsha; [by left|]. right. exists commit, p, others.
    by rewrite <- compare_url_text.
  - left. unfold settle. by destruct (quota_exhausted e).
Qed.

(** X10: when an upstream call of the diff endpoint fails with status 403
    and the header x-ratelimit-remaining equal to "0", the answer is 429
    with the body {error: "GitHub API rate limit exceeded", retry_after:
    the header x-ratelimit-reset of the failed answer}; when it is the
    commit lookup that fails so, it is the only upstream call. *)
Theorem diff_rate_limited rt api owner repository oid :
  (∀ e r, api CommitLookup (commit_url owner repository oid) = Rejected e →
        response e = Some r → status r = 403 →
        headers r !! "x-ratelimit-remaining" = Some "0" →
        run api (diff_handler rt owner repository oid) =
          ( [ (CommitLookup,
               "/repos/" +:+ owner +:+ "/" +:+ repository +:+ "/commits/" +:+ oid) ],
            Api.mkReply 429
              (Api.SignalBody
                 (mkSignal "GitHub API rate limit exceeded"
                    (headers r !! "x-ratelimit-reset"))) )) ∧
  (∀ commit parent e r,
        api CommitLookup (commit_url owner repository oid) = Fulfilled commit →
        parentOid commit = Some parent →
        api CompareLookup (compare_url owner repository parent oid) = Rejected e →
        response e = Some r → status r = 403 →
        headers r !! "x-ratelimit-remaining" = Some "0" →
        (run api (diff_handler rt owner repository oid)).2 =
          Api.mkReply 429
            (Api.SignalBody
               (mkSignal "GitHub API rate limit exceeded"
                  (headers r !! "x-ratelimit-reset")))).
Proof.
  split.
  - intros e r He Hr Hs Hh.
    rewrite run_diff_handler, He, settle_quota by (by exists r).
    unfold reset_header. by rewrite Hr.
  - intros commit parent e r Hc Hp He Hr Hs Hh.
    rewrite run_diff_handler, Hc. cbn [settle].
    rewrite Hp, He, settle_quota by (by exists r).
    unfold reset_header. by rewrite Hr.
Qed.

(** X11: any other failure of either upstream call is answered with the
    message "Error fetching commit diff" and the text of the error, under
    the status of the upstream answer, or 500 when the error carries no
    answer or the status 0. *)
Theorem diff_upstream_failure rt api owner repository oid :
  (∀ e, api CommitLookup (commit_url owner repository oid) = Rejected e →
        ¬ quota_failure e →
        run api (diff_handler rt owner repository oid) =
          ( [ (CommitLookup, commit_url owner repository oid) ],
            Api.mkReply (failure_status e)
              (Api.ErrorBody "Error fetching commit diff" (message e)) )) ∧
  (∀ commit parent e,
        api CommitLookup (commit_url owner repository oid) = Fulfilled commit →
        parentOid commit = Some parent →
        api CompareLookup (compare_url owner repository parent oid) = Rejected e →
        ¬ quota_failure e →
        run api (diff_handler rt owner repository oid) =
          ( [ (CommitLookup, commit_url owner repository oid);
              (CompareLookup, compare_url owner repository parent oid) ],
            Api.mkReply (failure_status e)
              (Api.ErrorBody "Error fetching commit diff" (message e)) )) ∧
  (∀ e, (response e = None → failure_status e = 500) ∧
        (∀ r, response e = Some r →
              failure_status e = if decide (status r = 0) then 500 else status r) ∧
        failure_status e ≠ 0).
Proof.
  split; [|split].
  - intros e He Hq. by rewrite run_diff_handler, He, settle_other.
  - intros commit parent e Hc Hp He Hq.
    rewrite run_diff_handler, Hc. cbn [settle]. by rewrite Hp, He, settle_other.
  - intros e. unfold failure_status. destruct (response e) as [r|].
    + split; [done|]. split; [by intros ? [= <-]|]. by case_decide.
    + split; [done|]. split; [done|]. done.
Qed.

Lemma file_hunks_parse f :
  file_hunks f = match patch f with Some p => parsePatch p | None => [] end.
Proof.
  unfold file_hunks. destruct (patch f) as [p|]; [|done].
  case_decide as Hp; [|done]. by subst p.
Qed.

(** X12: when both upstream calls resolve, the answer depends on the
    compare result alone.  If it lists its files, each with a status, the
    answer is 200 with one FileDiff per file, in upstream's order: the
    file's status put through [toUpperCase], the file's one filename as
    head path and as base path, and as hunks the parse of the file's patch
    text when there is one (an empty patch text included), none otherwise.
    If the files list is missing, or a file has no status, the answer is
    500 with the message "Error fetching commit diff" and the text of the
    TypeError. *)
Theorem diff_files_in_order rt api owner repository oid commit parent d :
  api CommitLookup (commit_url owner repository oid) = Fulfilled commit →
  parentOid commit = Some parent →
  api CompareLookup (compare_url owner repository parent oid) = Fulfilled d →
  (∀ fs, files d = Some fs → Forall (λ f, is_Some (file_status f)) fs →
     ∃ out,
       (run api (diff_handler rt owner repository oid)).2 =
         Api.mkReply 200 (Api.FilesBody out) ∧
       Forall2 (λ f o,
                  ∃ s, file_status f = Some s ∧
                       Api.changeKind o = toUpperCase rt s ∧
                       Api.path (Api.headFile o) = filename f ∧
                       Api.path (Api.baseFile o) = filename f ∧
                       Api.hunks o = match patch f with
                                     | Some p => parsePatch p
                                     | None => []
                                     end) fs out) ∧
  (files d = None →
     (run api (diff_handler rt owner repository oid)).2 =
       Api.mkReply 500
         (Api.ErrorBody "Error fetching commit diff" (type_error_text rt "map"))) ∧
  (∀ fs, files d = Some fs → Exists (λ f, file_status f = None) fs →
     (run api (diff_handler rt owner repository oid)).2 =
       Api.mkReply 500
         (Api.ErrorBody "Error fetching commit diff"
            (type_error_text rt "toUpperCase"))).
Proof.
  intros Hc Hp Hd. rewrite run_diff_handler, Hc. cbn [settle].
  rewrite Hp, Hd. cbn [settle snd]. split_and!.
  - intros fs -> Hall.
    destruct (mapM (file_diff rt) fs) as [out|] eqn:Hout.
    + exists out. split; [done|].
      apply mapM_Some_1 in Hout. eapply Forall2_impl; [exact Hout|].
      intros f o Hfo. cbn beta in Hfo. unfold file_diff in Hfo.
      destruct (file_status f) as [s|]; [|done]. injection Hfo as <-.
      exists s. cbn. by rewrite file_hunks_parse.
    + apply mapM_None_1, Exists_exists in Hout as (f & Hin & Hnone).
      rewrite Forall_forall in Hall. destruct (Hall f Hin) as [s Hs].
      unfold file_diff in Hnone. by rewrite Hs in Hnone.
  - by intros ->.
  - intros fs -> Hex. rewrite mapM_None_2; [done|].
    eapply Exists_impl; [exact Hex|]. intros f Hf. unfold file_diff. by rewrite Hf.
Qed.

Lemma diff_files_in_order_witness :
  (run sample_api (diff_handler ascii_runtime "o" "r" "c3")).2 =
    Api.mkReply 200
      (Api.FilesBody
         [ Api.mkFileDiff "MODIFIED" (Api.mkPath "a.txt") (Api.mkPath "a.txt")
             [scenario_hunk];
           Api.mkFileDiff "ADDED" (Api.mkPath "logo.png") (Api.mkPath "logo.png") [] ]).
Proof.
  destruct (diff_files_in_order ascii_runtime sample_api "o" "r" "c3"
              (mkCommit "c3" (Some [mkParent "c1"; mkParent "c2"])) "c1"
              (mkCompare (Some sample_files)) eq_refl eq_refl eq_refl)
    as (Hfiles & _ & _).
  destruct (Hfiles sample_files eq_refl) as (out & Hreply & Hout).
  - repeat constructor; eexists; reflexivity.
  - rewrite Hreply. clear Hreply Hfiles.
    inversion Hout as [|f1 o1 fs1 out1 H1 Hout1]; subst.
    inversion Hout1 as [|f2 o2 fs2 out2 H2 Hout2]; subst.
    inversion Hout2; subst.
    destruct H1 as (s1 & [= <-] & Hk1 & Hh1 & Hb1 & Hu1).
    destruct H2 as (s2 & [= <-] & Hk2 & Hh2 & Hb2 & Hu2).
    destruct o1 as [k1 [h1] [b1] u1], o2 as [k2 [h2] [b2] u2].
    cbn in *. subst. reflexivity.
Defined.

(** A compare result without its files list, and one with a file that has
    no status. *)
Example diff_without_files :
  let api : service := λ ep url,
    match ep with
    | CommitLookup => Fulfilled (mkCommit "c3" (Some [mkParent "c1"]))
    | CompareLookup => Fulfilled (mkCompare None)
    end in
  (run api (diff_handler ascii_runtime "o" "r" "c3")).2 =
    Api.mkReply 500
      (Api.ErrorBody "Error fetching commit diff"
         "Cannot read properties of undefined (reading 'map')").
Proof. vm_compute. reflexivity. Qed.

End endpoints_more.
